(** * cac: batch conversion of a directory tree

    A shallow embedding of package [convert] (ConvertFile, ConvertDir and the
    helpers of utils.go) together with the properties of the batch engine:
    eligibility, per-file action, bounded worker pool, error collection and
    the final report.

    Layout:
    - Go values: errors, log lines, the path helpers of the Go library;
    - the outside world as a record of answers, the helpers of utils.go on
      top of it, and [ConvertFile], written in a small monad that records
      every call that leaves it;
    - [WalkDir], the traversal of the Go library, and the callback that
      [ConvertDir] passes to it;
    - [ConvertDir] as a scheduler-driven machine: the main goroutine and one
      goroutine per regular file, sharing the semaphore channel, the wait
      group, the error slice and the four counters; a schedule says which
      goroutine moves next, so a property of every schedule is a property
      of every interleaving;
    - the invariants of that machine, concrete inputs, then the theorems. *)

From Stdlib Require Import String Ascii List Bool Arith ZArith Lia.
Import ListNotations.
Local Open Scope string_scope.
Local Open Scope list_scope.

Set Implicit Arguments.

(* ================================================================== *)
(** ** Go values *)

(** Go [error] values.  [errExternal] stands for an error made outside the
    package (operating system, template engine, child process).  The other
    constructors are the [fmt.Errorf] call sites of the package, each one
    keeping the path it is tagged with and the error it wraps. *)
Inductive error : Type :=
| errExternal (msg : string)
| errAccessing (path : string) (cause : error)   (* "error accessing %s: %w" *)
| errWalking (cause : error)                     (* "error walking directory: %w" *)
| errCompleted (n : nat)                         (* "\ncompleted with %d errors\n" *)
| errMove (path : string) (cause : error)        (* "failed to move file %s: %w" *)
| errCopy (path : string) (cause : error)        (* "failed to copy file %s: %w" *)
| errGenerate (path : string) (cause : error)    (* "failed to generate command for %s: %w" *)
| errConvert (path : string) (cause : error)     (* "failed to convert %s: %w" *)
| errDelete (path : string) (cause : error)      (* "failed to delete original file %s: %w" *)
| errNotRegular (src : string)                   (* "%s is not a regular file" *)
| errInvalidCommand (command : string).          (* "invalid command: %s" *)

(** The path an error is tagged with, when it has one. *)
Definition errorPath (e : error) : option string :=
  match e with
  | errAccessing p _ | errMove p _ | errCopy p _
  | errGenerate p _ | errConvert p _ | errDelete p _ => Some p
  | errExternal _ | errWalking _ | errCompleted _
  | errNotRegular _ | errInvalidCommand _ => None
  end.

(** The lines written with [log.Printf], one constructor per call site. *)
Inductive LogMsg : Type :=
| LogWorkers (n : nat)                      (* "using %d worker threads ..." *)
| LogWaiting                                (* "waiting for all conversions to complete..." *)
| LogErrorsHeader                           (* "=== errors encountered ===" *)
| LogError (i : nat) (e : error)            (* "Error %d: %v" *)
| LogSummaryHeader                          (* "=== conversion summary ===" *)
| LogConverted (n : Z)                      (* "files converted: %d" *)
| LogMoved (n : Z)                          (* "files moved/copied: %d" *)
| LogSkipped (n : Z)                        (* "files skipped: %d" *)
| LogFailed (n : Z)                         (* "files failed: %d" *)
| LogTotal (n : Z)                          (* "total files processed: %d" *)
| LogAlreadyThere (path : string)           (* "already in output directory - skipping: %s" *)
| LogMoving (src dst : string)              (* "moving: %s -> %s" *)
| LogCopying (src dst : string)             (* "copying: %s -> %s" *)
| LogMovedCopied (src dst : string)         (* "moved/copied: %s -> %s" *)
| LogConverting (src dst : string)          (* "converting: %s -> %s" *)
| LogDeleting (path : string)               (* "deleting original file: %s" *)
| LogConvertedFile (src dst : string).      (* "converted: %s -> %s" *)

(** [slices.Contains] on strings. *)
Fixpoint Contains (s : list string) (v : string) : bool :=
  match s with
  | [] => false
  | x :: rest => if String.eqb x v then true else Contains rest v
  end.

(** The functions of [path/filepath] and [strings] that the package calls.
    They belong to the Go library; the development is generic in them and
    [UnixPath] below gives their behaviour on slash-separated paths. *)
Class PathOps : Type := {
  Ext : string -> string;
  Base : string -> string;
  TrimSuffix : string -> string -> string;
  Join : string -> string -> string
}.

(* ================================================================== *)
(** ** The outside world seen from ConvertFile *)

(** Every call that leaves [ConvertFile]. *)
Inductive Call : Type :=
| CallLog (m : LogMsg)
| CallRename (src dst : string)                    (* os.Rename *)
| CallCopyFile (src dst : string)                  (* copyFile *)
| CallGenerate (tmpl input output : string)        (* generateConvertCommand *)
| CallRun (command : string) (quiet : bool)        (* runCommand *)
| CallRemove (path : string).                      (* os.Remove *)

(** What the outside world answers: the functions of [os], [io],
    [text/template], [shellwords] and [os/exec] that the package calls.
    One call of [ConvertFile] asks each question at most once, so a
    function per primitive covers every behaviour of the file system and of
    the external tool, whatever the other goroutines are doing meanwhile. *)
Record Env : Type := {
  os_Rename : string -> string -> option error;
  os_Remove : string -> option error;
  os_Stat : string -> bool + error;            (* Mode().IsRegular(), or the error *)
  os_Open : string -> option error;
  os_Create : string -> option error;
  io_Copy : string -> string -> option error;  (* destination, source *)
  template_Parse : string -> option error;
  template_Execute : string -> string -> string -> string + error;
  shellwords_Parse : string -> list string + error;
  cmd_Run : string -> list string -> bool -> option error  (* name, args, quiet *)
}.

(** utils.go: generateConvertCommand parses the template and executes it
    on the two file names. *)
Definition generateConvertCommand (env : Env) (tmpl inputFile outputFile : string)
  : string + error :=
  match template_Parse env tmpl with
  | Some err => inr err
  | None => template_Execute env tmpl inputFile outputFile
  end.

(** utils.go: splitCommand *)
Definition splitCommand (env : Env) (command : string) : list string + error :=
  shellwords_Parse env command.

(** utils.go: runCommand splits the command and runs it; the output of the
    child goes to the terminal unless [quiet]. *)
Definition runCommand (env : Env) (command : string) (quiet : bool) : option error :=
  match splitCommand env command with
  | inr err => Some err
  | inl commandParts =>
      match commandParts with
      | [] => Some (errInvalidCommand command)
      | name :: args => cmd_Run env name args quiet
      end
  end.

(** utils.go: copyFile refuses what is not a regular file, then opens the
    source, creates the destination and copies. *)
Definition copyFile (env : Env) (src dst : string) : option error :=
  match os_Stat env src with
  | inr err => Some err
  | inl regular =>
      if negb regular then Some (errNotRegular src)
      else
        match os_Open env src with
        | Some err => Some err
        | None =>
            match os_Create env dst with
            | Some err => Some err
            | None => io_Copy env dst src
            end
        end
  end.

(** Calls that change the file system or start a process. *)
Definition mutates (c : Call) : bool :=
  match c with
  | CallRename _ _ | CallCopyFile _ _ | CallRun _ _ | CallRemove _ => true
  | CallLog _ | CallGenerate _ _ _ => false
  end.

(** Calls that are not log lines. *)
Definition is_action (c : Call) : bool :=
  match c with
  | CallLog _ => false
  | _ => true
  end.

(** Calls that belong to a transcoding: building the command, running it,
    deleting the original. *)
Definition transcodes (c : Call) : bool :=
  match c with
  | CallGenerate _ _ _ | CallRun _ _ | CallRemove _ => true
  | CallLog _ | CallRename _ _ | CallCopyFile _ _ => false
  end.

(** Calls that move or copy a file. *)
Definition relocates (c : Call) : bool :=
  match c with
  | CallRename _ _ | CallCopyFile _ _ => true
  | _ => false
  end.

(** A computation reads the answers of the world and appends to the list of
    calls made so far. *)
Definition M (A : Type) : Type := Env -> list Call -> A * list Call.

Definition ret {A} (a : A) : M A := fun _ tr => (a, tr).

Definition bind {A B} (m : M A) (k : A -> M B) : M B :=
  fun env tr => let (a, tr') := m env tr in k a env tr'.

Declare Scope go_scope.
Delimit Scope go_scope with go.
Notation "x <- m ;; k" := (bind m (fun x => k))
  (at level 61, m at next level, right associativity) : go_scope.
Notation "m ;; k" := (bind m (fun _ => k))
  (at level 61, right associativity) : go_scope.

Definition call {A} (c : Call) (answer : Env -> A) : M A :=
  fun env tr => (answer env, tr ++ [c]).

Definition logPrintf (m : LogMsg) : M unit := call (CallLog m) (fun _ => tt).

(** [if !quiet { log.Printf(...) }] *)
Definition logUnlessQuiet (quiet : bool) (m : LogMsg) : M unit :=
  if quiet then ret tt else logPrintf m.

Definition Rename (src dst : string) : M (option error) :=
  call (CallRename src dst) (fun env => os_Rename env src dst).
Definition CopyFile (src dst : string) : M (option error) :=
  call (CallCopyFile src dst) (fun env => copyFile env src dst).
Definition Generate (tmpl i o : string) : M (string + error) :=
  call (CallGenerate tmpl i o) (fun env => generateConvertCommand env tmpl i o).
Definition Run (command : string) (quiet : bool) : M (option error) :=
  call (CallRun command quiet) (fun env => runCommand env command quiet).
Definition Remove (path : string) : M (option error) :=
  call (CallRemove path) (fun env => os_Remove env path).

(* ================================================================== *)
(** ** ConvertFile *)

Record ConvertFileOpts : Type := {
  cfCommand : string;
  cfPath : string;
  cfTargetExtension : string;
  cfOutDir : string;
  cfDeleteOriginal : bool;
  cfQuiet : bool
}.

Inductive fileActionType : Type :=
| fileActionFail      (* converting the file failed *)
| fileActionConvert   (* converting the file succeeded *)
| fileActionMove      (* the file was moved/copied *)
| fileActionSkip.     (* the file was skipped *)

Section WithPaths.
Context {P : PathOps}.
Local Open Scope go_scope.

(** [outputPath] as ConvertFile computes it. *)
Definition outputPathOf (o : ConvertFileOpts) : string :=
  let ext := Ext (cfPath o) in
  let fileName := (TrimSuffix (Base (cfPath o)) ext ++ cfTargetExtension o)%string in
  Join (cfOutDir o) fileName.

Definition ConvertFile (o : ConvertFileOpts) : M (option error * fileActionType) :=
  let ext := Ext (cfPath o) in
  let outputPath := outputPathOf o in
  if String.eqb ext (cfTargetExtension o) then
    if String.eqb (cfPath o) outputPath then
      logUnlessQuiet (cfQuiet o) (LogAlreadyThere (cfPath o)) ;;
      ret (None, fileActionSkip)
    else
      let moved :=
        logUnlessQuiet (cfQuiet o) (LogMovedCopied (cfPath o) outputPath) ;;
        ret (None, fileActionMove) in
      if cfDeleteOriginal o then
        logUnlessQuiet (cfQuiet o) (LogMoving (cfPath o) outputPath) ;;
        err <- Rename (cfPath o) outputPath ;;
        match err with
        | Some err => ret (Some (errMove (cfPath o) err), fileActionFail)
        | None => moved
        end
      else
        logUnlessQuiet (cfQuiet o) (LogCopying (cfPath o) outputPath) ;;
        err <- CopyFile (cfPath o) outputPath ;;
        match err with
        | Some err => ret (Some (errCopy (cfPath o) err), fileActionFail)
        | None => moved
        end
  else
    logUnlessQuiet (cfQuiet o) (LogConverting (cfPath o) outputPath) ;;
    g <- Generate (cfCommand o) (cfPath o) outputPath ;;
    match g with
    | inr err => ret (Some (errGenerate (cfPath o) err), fileActionFail)
    | inl command =>
        err <- Run command (cfQuiet o) ;;
        match err with
        | Some err => ret (Some (errConvert (cfPath o) err), fileActionFail)
        | None =>
            let converted :=
              logUnlessQuiet (cfQuiet o) (LogConvertedFile (cfPath o) outputPath) ;;
              ret (None, fileActionConvert) in
            if cfDeleteOriginal o then
              logUnlessQuiet (cfQuiet o) (LogDeleting (cfPath o)) ;;
              err <- Remove (cfPath o) ;;
              match err with
              | Some err => ret (Some (errDelete (cfPath o) err), fileActionFail)
              | None => converted
              end
            else converted
        end
    end.

(** One complete call: the result and the calls it made. *)
Definition runConvertFile (o : ConvertFileOpts) (env : Env)
  : (option error * fileActionType) * list Call :=
  ConvertFile o env [].

End WithPaths.

(* ================================================================== *)
(** ** The Go path helpers on slash-separated paths

    These follow [path/filepath] (Unix build) and [strings] of the Go
    library.  Nothing below depends on them except the concrete runs. *)

Module UnixPath.

Definition slash : ascii := "/"%char.
Definition dot : ascii := "."%char.

Definition isSep (c : ascii) : bool := Ascii.eqb c slash.

(** [filepath.Ext]: scan from the end up to the last separator; the
    extension starts at the first dot met. *)
Fixpoint extScan (rev_path acc : list ascii) : list ascii :=
  match rev_path with
  | [] => []
  | c :: r =>
      if isSep c then []
      else if Ascii.eqb c dot then c :: acc
      else extScan r (c :: acc)
  end.

Definition Ext (path : string) : string :=
  string_of_list_ascii (extScan (rev (list_ascii_of_string path)) []).

(** Drop the separators at the front of a list. *)
Fixpoint dropSeps (l : list ascii) : list ascii :=
  match l with
  | c :: r => if isSep c then dropSeps r else l
  | [] => []
  end.

(** Take the characters before the first separator. *)
Fixpoint takeElem (l : list ascii) : list ascii :=
  match l with
  | c :: r => if isSep c then [] else c :: takeElem r
  | [] => []
  end.

(** [filepath.Base]: strip trailing separators, keep the last element. *)
Definition Base (path : string) : string :=
  match list_ascii_of_string path with
  | [] => "."
  | l =>
      match dropSeps (rev l) with
      | [] => "/"
      | r => string_of_list_ascii (rev (takeElem r))
      end
  end.

Fixpoint hasPrefix (p l : list ascii) : bool :=
  match p, l with
  | [], _ => true
  | a :: p', b :: l' => Ascii.eqb a b && hasPrefix p' l'
  | _ :: _, [] => false
  end.

(** [strings.TrimSuffix] *)
Definition TrimSuffix (s suffix : string) : string :=
  let rs := rev (list_ascii_of_string s) in
  let rx := rev (list_ascii_of_string suffix) in
  if hasPrefix rx rs
  then string_of_list_ascii (rev (skipn (length rx) rs))
  else s.

(** The elements of a path, separators removed, empty elements dropped. *)
Fixpoint elements (fuel : nat) (l : list ascii) : list (list ascii) :=
  match fuel with
  | O => []
  | S fuel' =>
      match dropSeps l with
      | [] => []
      | l' => takeElem l' :: elements fuel' (skipn (length (takeElem l')) l')
      end
  end.

Definition isDot (e : list ascii) : bool :=
  match e with [c] => Ascii.eqb c dot | _ => false end.
Definition isDotDot (e : list ascii) : bool :=
  match e with [c; d] => Ascii.eqb c dot && Ascii.eqb d dot | _ => false end.

(** The loop of [filepath.Clean] over the elements; [out] is the output in
    reverse.  A [..] removes the last element written unless that element is
    itself a kept [..]; at the start of a rooted path it is dropped. *)
Fixpoint cleanElems (rooted : bool) (els out : list (list ascii)) : list (list ascii) :=
  match els with
  | [] => rev out
  | e :: rest =>
      if isDot e then cleanElems rooted rest out
      else if isDotDot e then
        match out with
        | top :: out' =>
            if isDotDot top then cleanElems rooted rest (e :: out)
            else cleanElems rooted rest out'
        | [] => if rooted then cleanElems rooted rest out
                else cleanElems rooted rest [e]
        end
      else cleanElems rooted rest (e :: out)
  end.

Fixpoint joinElems (els : list (list ascii)) : list ascii :=
  match els with
  | [] => []
  | [e] => e
  | e :: rest => e ++ slash :: joinElems rest
  end.

(** [filepath.Clean] *)
Definition Clean (path : string) : string :=
  match list_ascii_of_string path with
  | [] => "."
  | (c :: _) as l =>
      let rooted := isSep c in
      let body := joinElems (cleanElems rooted (elements (S (length l)) l) []) in
      match rooted, body with
      | true, _ => string_of_list_ascii (slash :: body)
      | false, [] => "."
      | false, _ => string_of_list_ascii body
      end
  end.

(** [filepath.Join] of two elements: empty elements are ignored, the rest
    is joined with a separator and cleaned. *)
Definition Join (a b : string) : string :=
  if String.eqb a EmptyString then
    if String.eqb b EmptyString then EmptyString else Clean b
  else Clean (a ++ "/" ++ b)%string.

End UnixPath.

#[export] Instance unixPathOps : PathOps := {
  Ext := UnixPath.Ext;
  Base := UnixPath.Base;
  TrimSuffix := UnixPath.TrimSuffix;
  Join := UnixPath.Join
}.

(* ================================================================== *)
(** ** filepath.WalkDir

    The directory tree is the tree the traversal observes: what [os.Lstat]
    answers for the root and what [os.ReadDir] answers for each directory
    (the entries it could read and the error, if any). *)

Inductive FsNode : Type :=
| NotDir                                                (* d.IsDir() is false *)
| IsDir (entries : FsForest) (readErr : option error)   (* a directory and its ReadDir *)
with FsForest : Type :=
| FNil
| FCons (name : string) (node : FsNode) (rest : FsForest).

(** Induction on a node together with the forest of its entries. *)
Scheme FsNode_mut := Induction for FsNode Sort Prop
  with FsForest_mut := Induction for FsForest Sort Prop.
Combined Scheme FsTree_mutind from FsNode_mut, FsForest_mut.

Inductive FsRoot : Type :=
| LstatFailed (err : error)
| LstatOk (node : FsNode).

(** The three shapes of the arguments [(d, err)] that WalkDir gives to its
    callback: an entry on the way in (err is nil), a directory whose ReadDir
    failed, and the root when Lstat failed (d is nil). *)
Inductive WalkArg : Type :=
| Visit (isDir : bool)
| ReadDirFailed (err : error)
| LstatError (err : error).

(** What the callback returns: nil, filepath.SkipDir, filepath.SkipAll or
    another error. *)
Inductive WalkRet : Type :=
| retNil
| retSkipDir
| retSkipAll
| retErr (err : error).

Definition isDir (d : FsNode) : bool :=
  match d with IsDir _ _ => true | NotDir => false end.

Section Walk.
Context {P : PathOps}.
Variable St : Type.
Variable fn : string -> WalkArg -> St -> WalkRet * St.

(** [walkDir] of the Go library: the callback is called on the entry; a
    directory is then read, a failed read is reported with a second call,
    and the entries are walked in order.  Any non-nil answer stops the walk
    of the enclosing directory; SkipDir is absorbed there. *)
Fixpoint walkDir (path : string) (d : FsNode) (s : St) {struct d} : WalkRet * St :=
  let (r, s) := fn path (Visit (isDir d)) s in
  match r, d with
  | retNil, IsDir entries readErr =>
      let (r2, s) := match readErr with
                     | Some err => fn path (ReadDirFailed err) s
                     | None => (retNil, s)
                     end in
      match r2 with
      | retNil => walkEntries path entries s
      | retSkipDir => (retNil, s)
      | _ => (r2, s)
      end
  | retSkipDir, IsDir _ _ => (retNil, s)
  | _, _ => (r, s)
  end
with walkEntries (path : string) (entries : FsForest) (s : St) {struct entries}
  : WalkRet * St :=
  match entries with
  | FNil => (retNil, s)
  | FCons name d1 rest =>
      let (r, s) := walkDir (Join path name) d1 s in
      match r with
      | retNil => walkEntries path rest s
      | retSkipDir => (retNil, s)
      | _ => (r, s)
      end
  end.

Definition WalkDir (root : string) (t : FsRoot) (s : St) : option error * St :=
  let (r, s) := match t with
                | LstatFailed err => fn root (LstatError err) s
                | LstatOk d => walkDir root d s
                end in
  match r with
  | retErr err => (Some err, s)
  | _ => (None, s)
  end.

End Walk.

(** The regular files of the observed tree, with the paths WalkDir builds
    for them, in the order of the walk; and the entries whose access
    failed, with the error. *)
Section Tree.
Context {P : PathOps}.

Fixpoint filesUnder (path : string) (d : FsNode) {struct d} : list string :=
  match d with
  | NotDir => [path]
  | IsDir entries _ => filesIn path entries
  end
with filesIn (path : string) (entries : FsForest) {struct entries} : list string :=
  match entries with
  | FNil => []
  | FCons name d1 rest => filesUnder (Join path name) d1 ++ filesIn path rest
  end.

Fixpoint failuresUnder (path : string) (d : FsNode) {struct d} : list (string * error) :=
  match d with
  | NotDir => []
  | IsDir entries readErr =>
      match readErr with Some err => [(path, err)] | None => [] end
      ++ failuresIn path entries
  end
with failuresIn (path : string) (entries : FsForest) {struct entries}
  : list (string * error) :=
  match entries with
  | FNil => []
  | FCons name d1 rest => failuresUnder (Join path name) d1 ++ failuresIn path rest
  end.

Definition regularFiles (root : string) (t : FsRoot) : list string :=
  match t with
  | LstatFailed _ => []
  | LstatOk d => filesUnder root d
  end.

Definition accessFailures (root : string) (t : FsRoot) : list (string * error) :=
  match t with
  | LstatFailed err => [(root, err)]
  | LstatOk d => failuresUnder root d
  end.

End Tree.

(* ================================================================== *)
(** ** ConvertDir *)

Record ConvertDirOpts : Type := {
  Command : string;
  Dir : string;
  Sources : list string;
  Except : list string;
  TargetExtension : string;
  OutDir : string;
  DeleteOriginal : bool;
  Quiet : bool
}.

(** The eligibility test at the head of each goroutine.  [inputPath] is the
    argument of the goroutine; the test reads the options only. *)
Definition shouldProcess (o : ConvertDirOpts) (inputPath : string) : bool :=
  if Contains (Sources o) (TargetExtension o) then true
  else if negb (Contains (Except o) (TargetExtension o)) then true
  else false.

(** The options that the goroutine for [inputPath] passes to ConvertFile. *)
Definition fileOpts (o : ConvertDirOpts) (inputPath : string) : ConvertFileOpts :=
  {| cfCommand := Command o;
     cfPath := inputPath;
     cfTargetExtension := TargetExtension o;
     cfOutDir := OutDir o;
     cfDeleteOriginal := DeleteOriginal o;
     cfQuiet := Quiet o |}.

(** What the main goroutine does before it waits, one statement each. *)
Inductive MainOp : Type :=
| OpLog (m : LogMsg)                 (* log.Printf *)
| OpAddError (err : error)           (* addError(err) *)
| OpGo (inputPath : string).         (* wg.Add(1); go func(inputPath) {...}(path) *)

(** The callback given to WalkDir.  It never looks at the shared state, so
    its effect is the list of statements it asks the main goroutine to run;
    it answers nil in every case. *)
Definition walkFn (path : string) (a : WalkArg) (ops : list MainOp)
  : WalkRet * list MainOp :=
  match a with
  | ReadDirFailed err | LstatError err =>
      (retNil, ops ++ [OpAddError (errAccessing path err)])
  | Visit true => (retNil, ops)
  | Visit false => (retNil, ops ++ [OpGo path])
  end.

Section Machine.
Context {P : PathOps}.

(** The statements of ConvertDir up to [wg.Wait()]. *)
Definition mainOps (o : ConvertDirOpts) (t : FsRoot) (maxGoroutines : nat)
  : list MainOp :=
  let (err, ops) := WalkDir walkFn (Dir o) t [] in
  (if Quiet o then [] else [OpLog (LogWorkers maxGoroutines)])
  ++ ops
  ++ match err with
     | Some err => [OpAddError (errWalking err)]
     | None => []
     end
  ++ (if Quiet o then [] else [OpLog LogWaiting]).

(** Where the main goroutine stands.  [mRun []] is [wg.Wait()]. *)
Inductive MainPc : Type :=
| mRun (ops : list MainOp)
| mReport
| mReturned (result : option error).

(** Where a file goroutine stands. *)
Inductive Pc : Type :=
| pcAcquire                                      (* sem <- struct{}{} *)
| pcBody                                         (* eligibility test, ConvertFile *)
| pcAddError (err : error) (a : fileActionType)  (* addError(err) *)
| pcStats (a : fileActionType)                   (* statsMutex.Lock(); switch fileAction *)
| pcRelease                                      (* deferred: <-sem *)
| pcWgDone                                       (* deferred: wg.Done() *)
| pcExit.

(** What has happened so far, for the statements about order. *)
Inductive Event : Type :=
| EvSpawn (i : nat) (inputPath : string)
| EvAcquire (i : nat)
| EvNotProcessed (i : nat)
| EvConvertFile (i : nat) (r : option error * fileActionType) (calls : list Call)
| EvStat (i : nat) (a : fileActionType)
| EvRelease (i : nat)
| EvDone (i : nat).

Record Stats : Type := {
  processedFiles : Z;
  skippedFiles : Z;
  movedFiles : Z;
  failedFiles : Z
}.

(** The counters are Go [int]s; a run adds at most one per file, far from
    the 64-bit bound, so they are kept as integers. *)
Definition count (a : fileActionType) (st : Stats) : Stats :=
  match a with
  | fileActionFail =>
      {| processedFiles := processedFiles st; skippedFiles := skippedFiles st;
         movedFiles := movedFiles st; failedFiles := failedFiles st + 1 |}
  | fileActionConvert =>
      {| processedFiles := processedFiles st + 1; skippedFiles := skippedFiles st;
         movedFiles := movedFiles st; failedFiles := failedFiles st |}
  | fileActionMove =>
      {| processedFiles := processedFiles st; skippedFiles := skippedFiles st;
         movedFiles := movedFiles st + 1; failedFiles := failedFiles st |}
  | fileActionSkip =>
      {| processedFiles := processedFiles st; skippedFiles := skippedFiles st + 1;
         movedFiles := movedFiles st; failedFiles := failedFiles st |}
  end%Z.

Record State : Type := {
  main : MainPc;
  goroutines : list (string * Pc);     (* argument and position of each goroutine *)
  sem : nat;                           (* elements in the channel [sem] *)
  wg : nat;                            (* counter of the wait group *)
  collectedErrors : list error;
  stats : Stats;
  logged : list LogMsg;                (* lines logged by ConvertDir itself *)
  trace : list Event
}.

Definition initial (o : ConvertDirOpts) (t : FsRoot) (maxGoroutines : nat) : State :=
  {| main := mRun (mainOps o t maxGoroutines);
     goroutines := [];
     sem := 0;
     wg := 0;
     collectedErrors := [];
     stats := {| processedFiles := 0; skippedFiles := 0;
                 movedFiles := 0; failedFiles := 0 |};
     logged := [];
     trace := [] |}.

Fixpoint updateAt {A} (i : nat) (x : A) (l : list A) : list A :=
  match l, i with
  | [], _ => []
  | _ :: r, O => x :: r
  | y :: r, S j => y :: updateAt j x r
  end.

(** [for i, err := range collectedErrors { log.Printf("Error %d: %v\n", i+1, err) }] *)
Fixpoint logErrors (i : nat) (errs : list error) : list LogMsg :=
  match errs with
  | [] => []
  | e :: r => LogError (i + 1) e :: logErrors (S i) r
  end.

Definition summary (st : Stats) : list LogMsg :=
  [ LogSummaryHeader;
    LogConverted (processedFiles st - failedFiles st);
    LogMoved (movedFiles st);
    LogSkipped (skippedFiles st);
    LogFailed (failedFiles st);
    LogTotal (processedFiles st + movedFiles st + skippedFiles st) ]%Z.

(** The end of ConvertDir, after [wg.Wait()]. *)
Definition report (o : ConvertDirOpts) (s : State) : State :=
  if (0 <? length (collectedErrors s))%nat then
    {| main := mReturned (Some (errCompleted (length (collectedErrors s))));
       goroutines := goroutines s; sem := sem s; wg := wg s;
       collectedErrors := collectedErrors s; stats := stats s;
       logged := logged s ++ LogErrorsHeader :: logErrors 0 (collectedErrors s);
       trace := trace s |}
  else
    {| main := mReturned None;
       goroutines := goroutines s; sem := sem s; wg := wg s;
       collectedErrors := collectedErrors s; stats := stats s;
       logged := logged s ++ (if Quiet o then [] else summary (stats s));
       trace := trace s |}.

(** One statement of the main goroutine. *)
Definition stepMain (o : ConvertDirOpts) (s : State) : option State :=
  match main s with
  | mRun (OpLog m :: rest) =>
      Some {| main := mRun rest;
              goroutines := goroutines s; sem := sem s; wg := wg s;
              collectedErrors := collectedErrors s; stats := stats s;
              logged := logged s ++ [m]; trace := trace s |}
  | mRun (OpAddError err :: rest) =>
      Some {| main := mRun rest;
              goroutines := goroutines s; sem := sem s; wg := wg s;
              collectedErrors := collectedErrors s ++ [err]; stats := stats s;
              logged := logged s; trace := trace s |}
  | mRun (OpGo inputPath :: rest) =>
      Some {| main := mRun rest;
              goroutines := goroutines s ++ [(inputPath, pcAcquire)];
              sem := sem s; wg := S (wg s);
              collectedErrors := collectedErrors s; stats := stats s;
              logged := logged s;
              trace := trace s ++ [EvSpawn (length (goroutines s)) inputPath] |}
  | mRun [] =>
      (* wg.Wait() blocks until the counter is zero *)
      if (wg s =? 0)%nat then
        Some {| main := mReport;
                goroutines := goroutines s; sem := sem s; wg := wg s;
                collectedErrors := collectedErrors s; stats := stats s;
                logged := logged s; trace := trace s |}
      else None
  | mReport => Some (report o s)
  | mReturned _ => None
  end.

(** A goroutine moves to [pc'], with the new shared state given. *)
Definition moveTo (s : State) (i : nat) (inputPath : string) (pc' : Pc)
    (sem' wg' : nat) (errs : list error) (st : Stats) (ev : list Event) : State :=
  {| main := main s;
     goroutines := updateAt i (inputPath, pc') (goroutines s);
     sem := sem'; wg := wg';
     collectedErrors := errs; stats := st;
     logged := logged s;
     trace := trace s ++ ev |}.

(** One step of goroutine [i]; [env] is what the outside world answers if
    the step is the call of ConvertFile.  [None]: the goroutine is blocked
    or has finished. *)
Definition stepGo (o : ConvertDirOpts) (maxGoroutines : nat)
    (i : nat) (env : Env) (s : State) : option State :=
  match nth_error (goroutines s) i with
  | None => None
  | Some (inputPath, pc) =>
      match pc with
      | pcAcquire =>
          (* a send on a channel of capacity maxGoroutines blocks when it is full *)
          if (sem s <? maxGoroutines)%nat then
            Some (moveTo s i inputPath pcBody (S (sem s)) (wg s)
                         (collectedErrors s) (stats s) [EvAcquire i])
          else None
      | pcBody =>
          if shouldProcess o inputPath then
            let (r, calls) := runConvertFile (fileOpts o inputPath) env in
            let (err, fileAction) := r in
            Some (moveTo s i inputPath
                         match err with
                         | Some err => pcAddError err fileAction
                         | None => pcStats fileAction
                         end
                         (sem s) (wg s) (collectedErrors s) (stats s)
                         [EvConvertFile i r calls])
          else
            Some (moveTo s i inputPath pcRelease (sem s) (wg s)
                         (collectedErrors s) (stats s) [EvNotProcessed i])
      | pcAddError err fileAction =>
          Some (moveTo s i inputPath (pcStats fileAction) (sem s) (wg s)
                       (collectedErrors s ++ [err]) (stats s) [])
      | pcStats fileAction =>
          Some (moveTo s i inputPath pcRelease (sem s) (wg s)
                       (collectedErrors s) (count fileAction (stats s))
                       [EvStat i fileAction])
      | pcRelease =>
          (* a receive blocks on an empty channel *)
          match sem s with
          | S n => Some (moveTo s i inputPath pcWgDone n (wg s)
                                (collectedErrors s) (stats s) [EvRelease i])
          | O => None
          end
      | pcWgDone =>
          match wg s with
          | S n => Some (moveTo s i inputPath pcExit (sem s) n
                                (collectedErrors s) (stats s) [EvDone i])
          | O => None
          end
      | pcExit => None
      end
  end.

(** The scheduler picks which goroutine runs next. *)
Inductive Choice : Type :=
| runMain
| runGo (i : nat) (env : Env).

Definition step (o : ConvertDirOpts) (maxGoroutines : nat) (c : Choice) (s : State)
  : option State :=
  match c with
  | runMain => stepMain o s
  | runGo i env => stepGo o maxGoroutines i env s
  end.

(** A schedule is run from left to right; [None] when it asks for a step
    that cannot be taken. *)
Fixpoint exec (o : ConvertDirOpts) (maxGoroutines : nat) (sched : list Choice)
    (s : State) : option State :=
  match sched with
  | [] => Some s
  | c :: rest =>
      match step o maxGoroutines c s with
      | Some s' => exec o maxGoroutines rest s'
      | None => None
      end
  end.

(** The states ConvertDir can be in. *)
Definition reachable (o : ConvertDirOpts) (t : FsRoot) (maxGoroutines : nat)
    (s : State) : Prop :=
  exists sched, exec o maxGoroutines sched (initial o t maxGoroutines) = Some s.

Definition b2n (b : bool) : nat := if b then 1 else 0.

(** How many goroutines stand at a position that satisfies [f]. *)
Definition countIf (f : Pc -> bool) (gs : list (string * Pc)) : nat :=
  length (filter (fun g => f (snd g)) gs).

(** Goroutines between the send on [sem] and the receive from it. *)
Definition holdsSlot (pc : Pc) : bool :=
  match pc with
  | pcBody | pcAddError _ _ | pcStats _ | pcRelease => true
  | pcAcquire | pcWgDone | pcExit => false
  end.

Definition inFlight (s : State) : nat := countIf holdsSlot (goroutines s).

Definition exited (pc : Pc) : bool :=
  match pc with pcExit => true | _ => false end.

Definition returned (s : State) : option (option error) :=
  match main s with
  | mReturned r => Some r
  | _ => None
  end.

Definition total (st : Stats) : Z :=
  (processedFiles st + movedFiles st + skippedFiles st + failedFiles st)%Z.

Definition live (pc : Pc) : bool := negb (exited pc).

(** The goroutines the main goroutine has still to start. *)
Fixpoint goPaths (ops : list MainOp) : list string :=
  match ops with
  | [] => []
  | OpGo p :: rest => p :: goPaths rest
  | _ :: rest => goPaths rest
  end.

(** The errors the main goroutine has still to record. *)
Fixpoint opErrors (ops : list MainOp) : list error :=
  match ops with
  | [] => []
  | OpAddError e :: rest => e :: opErrors rest
  | _ :: rest => opErrors rest
  end.

Definition pendingOps (m : MainPc) : list MainOp :=
  match m with
  | mRun ops => ops
  | _ => []
  end.

(** The error recorded for an entry whose access failed. *)
Definition asError (pe : string * error) : error := errAccessing (fst pe) (snd pe).

(** Positions between the return of ConvertFile and the update of the
    counters. *)
Definition afterCall (pc : Pc) : bool :=
  match pc with
  | pcAddError _ _ | pcStats _ => true
  | _ => false
  end.

(** Positions after the body of the goroutine. *)
Definition pastBody (pc : Pc) : bool :=
  match pc with
  | pcRelease | pcWgDone | pcExit => true
  | _ => false
  end.

(** About to count a failure. *)
Definition statsFail (pc : Pc) : bool :=
  match pc with
  | pcStats fileActionFail => true
  | _ => false
  end.

(** The event is the eligibility decision of goroutine [i]: the file is
    left alone, or ConvertFile is called on it. *)
Definition decides (i : nat) (ev : Event) : bool :=
  match ev with
  | EvNotProcessed j | EvConvertFile j _ _ => Nat.eqb i j
  | _ => false
  end.

Definition acquires (i : nat) (ev : Event) : bool :=
  match ev with
  | EvAcquire j => Nat.eqb i j
  | _ => false
  end.

(** Steps left to a goroutine and to the main goroutine, at most. *)
Definition pcWeight (pc : Pc) : nat :=
  match pc with
  | pcAcquire => 6
  | pcBody => 5
  | pcAddError _ _ => 4
  | pcStats _ => 3
  | pcRelease => 2
  | pcWgDone => 1
  | pcExit => 0
  end.

Definition mainWeight (m : MainPc) : nat :=
  match m with
  | mRun ops => 7 * length ops + 2
  | mReport => 1
  | mReturned _ => 0
  end.

Definition weight (s : State) : nat :=
  mainWeight (main s) + list_sum (map (fun g => pcWeight (snd g)) (goroutines s)).

(** A world in which every call succeeds. *)
Definition envOk : Env :=
  {| os_Rename := fun _ _ => None;
     os_Remove := fun _ => None;
     os_Stat := fun _ => inl true;
     os_Open := fun _ => None;
     os_Create := fun _ => None;
     io_Copy := fun _ _ => None;
     template_Parse := fun _ => None;
     template_Execute := fun _ i o => inl ("ffmpeg -y -i " ++ i ++ " " ++ o)%string;
     shellwords_Parse := fun _ => inl ["ffmpeg"; "-y"];
     cmd_Run := fun _ _ _ => None |}.

(** The lines the main goroutine has still to log before it waits. *)
Fixpoint opLogs (ops : list MainOp) : list LogMsg :=
  match ops with
  | [] => []
  | OpLog m :: rest => m :: opLogs rest
  | _ :: rest => opLogs rest
  end.

(** What ConvertDir logs before [wg.Wait()], and after it. *)
Definition preamble (o : ConvertDirOpts) (maxGoroutines : nat) : list LogMsg :=
  (if Quiet o then [] else [LogWorkers maxGoroutines])
  ++ (if Quiet o then [] else [LogWaiting]).

Definition finalLogs (o : ConvertDirOpts) (s : State) : list LogMsg :=
  if (0 <? length (collectedErrors s))%nat
  then LogErrorsHeader :: logErrors 0 (collectedErrors s)
  else if Quiet o then [] else summary (stats s).

Definition finalResult (s : State) : option error :=
  if (0 <? length (collectedErrors s))%nat
  then Some (errCompleted (length (collectedErrors s)))
  else None.

(** *** Invariants of the machine *)

(** The worker pool: the channel holds one element per goroutine between
    its send and its receive, never more than its capacity; the wait group
    counts the goroutines that have not called Done; once Wait has
    returned, it stays at zero. *)
Record PoolInv (maxGoroutines : nat) (s : State) : Prop := {
  pool_sem : sem s = inFlight s;
  pool_cap : sem s <= maxGoroutines;
  pool_wg : wg s = countIf live (goroutines s);
  pool_after : match main s with mRun _ => True | _ => wg s = 0 end
}.

(** - every regular file of the tree has its goroutine or is still to be
      started by the main goroutine, in the order of the walk;
    - every failed access is in the error slice or still to be recorded;
    - ConvertFile is only called when the eligibility test passed;
    - the four counters add up to the number of goroutines that went
      through the counting switch;
    - each counted failure has its error in the slice. *)
Record RunInv (o : ConvertDirOpts) (t : FsRoot) (s : State) : Prop := {
  run_spawn :
    map fst (goroutines s) ++ goPaths (pendingOps (main s))
    = regularFiles (Dir o) t;
  run_errors : forall e,
    In e (map asError (accessFailures (Dir o) t)) ->
    In e (collectedErrors s) \/ In e (opErrors (pendingOps (main s)));
  run_elig : forall p pc,
    In (p, pc) (goroutines s) -> afterCall pc = true -> shouldProcess o p = true;
  run_total : forall p,
    total (stats s) =
    if shouldProcess o p then Z.of_nat (countIf pastBody (goroutines s)) else 0%Z;
  run_failed :
    (0 <= failedFiles (stats s))%Z /\
    (failedFiles (stats s) + Z.of_nat (countIf statsFail (goroutines s))
     <= Z.of_nat (length (collectedErrors s)))%Z
}.

(** - a goroutine was spawned before anything else happens to it, and it
      has acquired its slot once it is past the send on [sem];
    - in the trace, the acquisition of goroutine [i] comes after its
      spawn, and its eligibility decision after its acquisition;
    - a goroutine past its body has taken its decision: ConvertFile was
      called on its file if the test passed, and the file was left alone
      otherwise. *)
Record TraceInv (o : ConvertDirOpts) (s : State) : Prop := {
  tr_spawned : forall i p pc,
    nth_error (goroutines s) i = Some (p, pc) -> In (EvSpawn i p) (trace s);
  tr_acquired : forall i p pc,
    nth_error (goroutines s) i = Some (p, pc) -> pc <> pcAcquire ->
    In (EvAcquire i) (trace s);
  tr_exists : forall i ev,
    In ev (trace s) -> (acquires i ev || decides i ev) = true ->
    i < length (goroutines s);
  tr_acq_order : forall t1 ev t2 i,
    trace s = t1 ++ ev :: t2 -> acquires i ev = true ->
    exists p, In (EvSpawn i p) t1;
  tr_dec_order : forall t1 ev t2 i,
    trace s = t1 ++ ev :: t2 -> decides i ev = true -> In (EvAcquire i) t1;
  tr_decided : forall i p pc,
    nth_error (goroutines s) i = Some (p, pc) ->
    (afterCall pc || pastBody pc) = true ->
    if shouldProcess o p
    then exists env,
           In (EvConvertFile i (fst (runConvertFile (fileOpts o p) env))
                               (snd (runConvertFile (fileOpts o p) env))) (trace s)
    else In (EvNotProcessed i) (trace s);
  tr_calls : forall i r calls,
    In (EvConvertFile i r calls) (trace s) ->
    exists p pc env,
      nth_error (goroutines s) i = Some (p, pc) /\
      shouldProcess o p = true /\
      runConvertFile (fileOpts o p) env = (r, calls);
  tr_skipped : forall i,
    In (EvNotProcessed i) (trace s) ->
    exists p pc,
      nth_error (goroutines s) i = Some (p, pc) /\ shouldProcess o p = false;
  tr_released : forall i p pc,
    nth_error (goroutines s) i = Some (p, pc) ->
    pc = pcWgDone \/ pc = pcExit -> In (EvRelease i) (trace s)
}.

(** What has been logged, and what is returned. *)
Definition LogInv (o : ConvertDirOpts) (maxGoroutines : nat) (s : State) : Prop :=
  match main s with
  | mRun ops => logged s ++ opLogs ops = preamble o maxGoroutines
  | mReport => logged s = preamble o maxGoroutines
  | mReturned r =>
      r = finalResult s /\
      logged s = preamble o maxGoroutines ++ finalLogs o s
  end.

End Machine.

(* ================================================================== *)
(** ** Concrete inputs *)

(** The eligibility test of the flag-based program (main.go), which reads
    the extension of the file: with source extensions given the file must
    match one of them, otherwise it must not be exempted. *)
Definition matchesSourceCriteria
    (sourceExtensionsSlice exemptedExtensionsSlice : list string) (ext : string)
  : bool :=
  if (0 <? length sourceExtensionsSlice)%nat
  then Contains sourceExtensionsSlice ext
  else negb (Contains exemptedExtensionsSlice ext).

Definition template : string := "ffmpeg -y -i {{ .InputFile }} {{ .OutputFile }}".

Definition mkOpts (sources except : list string) (quiet : bool) : ConvertDirOpts :=
  {| Command := template;
     Dir := "music";
     Sources := sources;
     Except := except;
     TargetExtension := ".mp3";
     OutDir := "out";
     DeleteOriginal := false;
     Quiet := quiet |}.

(** --sources .opus --except .mp3 *)
Definition optsAllow : ConvertDirOpts := mkOpts [".opus"] [".mp3"] false.
(** --except .txt *)
Definition optsDeny : ConvertDirOpts := mkOpts [] [".txt"] false.
(** --except .mp3 *)
Definition optsExceptTarget : ConvertDirOpts := mkOpts [] [".mp3"] false.
(** no filter *)
Definition optsPlain : ConvertDirOpts := mkOpts [] [] false.

Definition oneFile (name : string) : FsRoot :=
  LstatOk (IsDir (FCons name NotDir FNil) None).

Definition treeSong : FsRoot := oneFile "song.opus".
Definition treeNote : FsRoot := oneFile "note.txt".
Definition treeWav : FsRoot := oneFile "a.wav".

Definition treeTwo : FsRoot :=
  LstatOk (IsDir (FCons "note.txt" NotDir (FCons "song.opus" NotDir FNil)) None).

Definition denied : error := errExternal "open music/locked: permission denied".

(** music/locked cannot be read; music/z.wav comes after it. *)
Definition treeLocked : FsRoot :=
  LstatOk (IsDir (FCons "locked" (IsDir FNil (Some denied))
                 (FCons "z.wav" NotDir FNil)) None).

Definition exitStatus1 : error := errExternal "exit status 1".

(** A world in which the external command fails. *)
Definition envFail : Env :=
  {| os_Rename := fun _ _ => None;
     os_Remove := fun _ => None;
     os_Stat := fun _ => inl true;
     os_Open := fun _ => None;
     os_Create := fun _ => None;
     io_Copy := fun _ _ => None;
     template_Parse := fun _ => None;
     template_Execute := fun _ i o => inl ("ffmpeg -y -i " ++ i ++ " " ++ o)%string;
     shellwords_Parse := fun _ => inl ["ffmpeg"; "-y"];
     cmd_Run := fun _ _ _ => Some exitStatus1 |}.

(** A world in which what is to be copied is a directory. *)
Definition envDirectory : Env :=
  {| os_Rename := fun _ _ => None;
     os_Remove := fun _ => None;
     os_Stat := fun _ => inl false;
     os_Open := fun _ => None;
     os_Create := fun _ => None;
     io_Copy := fun _ _ => None;
     template_Parse := fun _ => None;
     template_Execute := fun _ i o => inl ("ffmpeg -y -i " ++ i ++ " " ++ o)%string;
     shellwords_Parse := fun _ => inl ["ffmpeg"; "-y"];
     cmd_Run := fun _ _ _ => None |}.

(** Schedules for a tree with one regular file, options not quiet: the
    main goroutine logs, starts the goroutine, logs; the goroutine runs to
    its end in [n] steps; the main goroutine waits and reports. *)
Definition schedOne (n : nat) (env : Env) : list Choice :=
  repeat runMain 3 ++ repeat (runGo 0 env) n ++ repeat runMain 2.

(** Two regular files, neither processed, the second goroutine first. *)
Definition schedTwo : list Choice :=
  repeat runMain 4 ++ repeat (runGo 1 envOk) 4 ++ repeat (runGo 0 envOk) 4
  ++ repeat runMain 2.

(** treeLocked: the failed read is recorded, then z.wav is converted. *)
Definition schedLocked : list Choice :=
  repeat runMain 4 ++ repeat (runGo 0 envOk) 5 ++ repeat runMain 2.

(** The file of the relocation examples. *)
Definition inPlace : ConvertFileOpts :=
  {| cfCommand := template; cfPath := "out/b.mp3"; cfTargetExtension := ".mp3";
     cfOutDir := "out"; cfDeleteOriginal := true; cfQuiet := false |}.

Definition toRelocate : ConvertFileOpts :=
  {| cfCommand := template; cfPath := "music/b.mp3"; cfTargetExtension := ".mp3";
     cfOutDir := "out"; cfDeleteOriginal := false; cfQuiet := false |}.

Definition toConvert : ConvertFileOpts :=
  {| cfCommand := template; cfPath := "music/a.wav"; cfTargetExtension := ".mp3";
     cfOutDir := "out"; cfDeleteOriginal := false; cfQuiet := false |}.

(* ================================================================== *)
(** ** More about the calls of ConvertFile *)

(** Calls after which the file is no longer at its original path. *)
Definition destroys (c : Call) : bool :=
  match c with
  | CallRename _ _ | CallRemove _ => true
  | _ => false
  end.

Definition removes (c : Call) : bool :=
  match c with
  | CallRemove _ => true
  | _ => false
  end.

Definition runsProcess (c : Call) : bool :=
  match c with
  | CallRun _ _ => true
  | _ => false
  end.

Definition logs (c : Call) : bool := negb (is_action c).

(** A file with a name that is not the target extension, to be converted
    and then deleted. *)
Definition toConvertAndDelete : ConvertFileOpts :=
  {| cfCommand := template; cfPath := "music/a.wav"; cfTargetExtension := ".mp3";
     cfOutDir := "out"; cfDeleteOriginal := true; cfQuiet := true |}.

(* ================================================================== *)
(** ** The helpers of utils.go, call by call

    [copyFile], [runCommand] and [generateConvertCommand] above give the
    answer of each helper.  Here the same helpers are written with the
    calls they make to [os], [io], [text/template], [shellwords] and
    [os/exec], deferred calls included, so that what they do on the way can
    be stated. *)

Inductive OsCall : Type :=
| OsStat (path : string)
| OsOpen (path : string)
| OsCreate (path : string)
| OsCopy (dst src : string)                      (* io.Copy(destination, source) *)
| OsClose (path : string)                        (* Close of the file opened at path *)
| TmplParse (tmpl : string)
| TmplExecute (tmpl inputFile outputFile : string)
| ShellParse (command : string)
| CmdRun (name : string) (args : list string) (quiet : bool).

Definition IO (A : Type) : Type := Env -> list OsCall -> A * list OsCall.

Definition ioRet {A} (a : A) : IO A := fun _ tr => (a, tr).

Definition ioBind {A B} (m : IO A) (k : A -> IO B) : IO B :=
  fun env tr => let (a, tr') := m env tr in k a env tr'.

Declare Scope io_scope.
Delimit Scope io_scope with io.
Notation "x <- m ;; k" := (ioBind m (fun x => k))
  (at level 61, m at next level, right associativity) : io_scope.
Notation "m ;; k" := (ioBind m (fun _ => k))
  (at level 61, right associativity) : io_scope.

Definition osCall {A} (c : OsCall) (answer : Env -> A) : IO A :=
  fun env tr => (answer env, tr ++ [c]).

Definition ioClose (path : string) : IO unit := osCall (OsClose path) (fun _ => tt).

Section HelpersIO.
Local Open Scope io_scope.

(** copyFile: [defer source.Close()] and [defer destination.Close()] run
    when the function returns, the last deferred first. *)
Definition copyFileIO (src dst : string) : IO (option error) :=
  st <- osCall (OsStat src) (fun env => os_Stat env src) ;;
  match st with
  | inr err => ioRet (Some err)
  | inl regular =>
      if negb regular then ioRet (Some (errNotRegular src))
      else
        err <- osCall (OsOpen src) (fun env => os_Open env src) ;;
        match err with
        | Some err => ioRet (Some err)
        | None =>
            (* defer source.Close() *)
            err <- osCall (OsCreate dst) (fun env => os_Create env dst) ;;
            match err with
            | Some err => ioClose src ;; ioRet (Some err)
            | None =>
                (* defer destination.Close() *)
                err <- osCall (OsCopy dst src) (fun env => io_Copy env dst src) ;;
                ioClose dst ;;
                ioClose src ;;
                ioRet err
            end
        end
  end.

Definition generateConvertCommandIO (tmpl inputFile outputFile : string)
  : IO (string + error) :=
  err <- osCall (TmplParse tmpl) (fun env => template_Parse env tmpl) ;;
  match err with
  | Some err => ioRet (inr err)
  | None =>
      osCall (TmplExecute tmpl inputFile outputFile)
             (fun env => template_Execute env tmpl inputFile outputFile)
  end.

Definition runCommandIO (command : string) (quiet : bool) : IO (option error) :=
  parts <- osCall (ShellParse command) (fun env => splitCommand env command) ;;
  match parts with
  | inr err => ioRet (Some err)
  | inl commandParts =>
      match commandParts with
      | [] => ioRet (Some (errInvalidCommand command))
      | name :: args =>
          osCall (CmdRun name args quiet) (fun env => cmd_Run env name args quiet)
      end
  end.

End HelpersIO.

(** The files a sequence of calls has opened or created with success, and
    the files it has closed. *)
Fixpoint openedBy (env : Env) (tr : list OsCall) : list string :=
  match tr with
  | [] => []
  | OsOpen p :: rest =>
      match os_Open env p with
      | None => p :: openedBy env rest
      | Some _ => openedBy env rest
      end
  | OsCreate p :: rest =>
      match os_Create env p with
      | None => p :: openedBy env rest
      | Some _ => openedBy env rest
      end
  | _ :: rest => openedBy env rest
  end.

Fixpoint closedBy (tr : list OsCall) : list string :=
  match tr with
  | [] => []
  | OsClose p :: rest => p :: closedBy rest
  | _ :: rest => closedBy rest
  end.


Definition writesFile (c : OsCall) : bool :=
  match c with
  | OsCreate _ | OsCopy _ _ => true
  | _ => false
  end.

(** A world in which the destination cannot be created. *)
Definition envReadOnly : Env :=
  {| os_Rename := fun _ _ => None;
     os_Remove := fun _ => None;
     os_Stat := fun _ => inl true;
     os_Open := fun _ => None;
     os_Create := fun _ => Some (errExternal "read-only file system");
     io_Copy := fun _ _ => None;
     template_Parse := fun _ => None;
     template_Execute := fun _ i o => inl ("ffmpeg -y -i " ++ i ++ " " ++ o)%string;
     shellwords_Parse := fun _ => inl ["ffmpeg"; "-y"];
     cmd_Run := fun _ _ _ => None |}.


(* ================================================================== *)
(** ** The ledger of a run: errors, counters, decisions *)

Definition action_eqb (a b : fileActionType) : bool :=
  match a, b with
  | fileActionFail, fileActionFail
  | fileActionConvert, fileActionConvert
  | fileActionMove, fileActionMove
  | fileActionSkip, fileActionSkip => true
  | _, _ => false
  end.

(** The counter that [switch fileAction] increments for an action. *)
Definition counter (a : fileActionType) (st : Stats) : Z :=
  match a with
  | fileActionFail => failedFiles st
  | fileActionConvert => processedFiles st
  | fileActionMove => movedFiles st
  | fileActionSkip => skippedFiles st
  end.

(** The event is a call of ConvertFile that answered action [a]. *)
Definition isOutcome (a : fileActionType) (ev : Event) : bool :=
  match ev with
  | EvConvertFile _ (_, a') _ => action_eqb a a'
  | _ => false
  end.

Definition outcomes (a : fileActionType) (tr : list Event) : nat :=
  length (filter (isOutcome a) tr).

(** The goroutine has an answer [a] of ConvertFile that it has not counted
    yet. *)
Definition owes (a : fileActionType) (pc : Pc) : bool :=
  match pc with
  | pcAddError _ a' | pcStats a' => action_eqb a a'
  | _ => false
  end.

(** The event is a call of ConvertFile by goroutine [i]. *)
Definition isCallOf (i : nat) (ev : Event) : bool :=
  match ev with
  | EvConvertFile j _ _ => Nat.eqb i j
  | _ => false
  end.

Definition nDecisions (i : nat) (tr : list Event) : nat :=
  length (filter (decides i) tr).

Definition nCalls (i : nat) (tr : list Event) : nat :=
  length (filter (isCallOf i) tr).

Definition decided (pc : Pc) : bool := afterCall pc || pastBody pc.

Section Ledger.
Context {P : PathOps}.

(** An error waiting to be added comes with fileActionFail, and the errors
    recorded or still to be recorded by the main goroutine, together with
    the failures counted or about to be, make up the error slice. *)
Record ErrInv (o : ConvertDirOpts) (t : FsRoot) (s : State) : Prop := {
  err_fail : forall p e a,
    In (p, pcAddError e a) (goroutines s) -> a = fileActionFail;
  err_count :
    (Z.of_nat (length (collectedErrors s))
     + Z.of_nat (length (opErrors (pendingOps (main s))))
     = Z.of_nat (length (accessFailures (Dir o) t))
       + failedFiles (stats s)
       + Z.of_nat (countIf statsFail (goroutines s)))%Z
}.

(** Each answer of ConvertFile is counted once, when the goroutine reaches
    the switch. *)
Definition CountInv (s : State) : Prop :=
  forall a,
    Z.of_nat (outcomes a (trace s))
    = (counter a (stats s) + Z.of_nat (countIf (owes a) (goroutines s)))%Z.

(** A goroutine decides once, in its body, and calls ConvertFile then if
    the eligibility test passes. *)
Definition DecInv (o : ConvertDirOpts) (s : State) : Prop :=
  forall i,
    nDecisions i (trace s)
    = match nth_error (goroutines s) i with
      | Some (_, pc) => b2n (decided pc)
      | None => 0
      end /\
    nCalls i (trace s)
    = match nth_error (goroutines s) i with
      | Some (p, pc) => b2n (decided pc && shouldProcess o p)
      | None => 0
      end.

End Ledger.

(** Two files, both converted, with DeleteOriginal unset. *)
Definition schedBoth : list Choice :=
  repeat runMain 4 ++ repeat (runGo 1 envOk) 5 ++ repeat (runGo 0 envFail) 6
  ++ repeat runMain 2.

(** Quiet, no filter. *)
Definition optsQuiet : ConvertDirOpts := mkOpts [] [] true.

(** One regular file, options quiet: no log line before the wait. *)
Definition schedQuiet : list Choice :=
  [runMain] ++ repeat (runGo 0 envOk) 5 ++ repeat runMain 2.

(* ================================================================== *)
(** ** The command line: the Action of package cmd *)

(** The values of the flags, defaults applied. *)
Record Flags : Type := {
  flag_command : string;
  flag_dir : string;
  flag_files : list string;
  flag_target : string;
  flag_except : list string;
  flag_sources : list string;
  flag_out_dir : string;
  flag_create_out_dir : bool;
  flag_delete : bool;
  flag_quiet : bool
}.

(** The errors Action makes or passes on. *)
Inductive cliError : Type :=
| cliRequired                        (* "input directory (--dir) or file(s) (--files) are required" *)
| cliDirNotExist (dir : string)      (* "directory %q does not exist" *)
| cliMkdirFailed (cause : error)     (* "failed to create output directory: %v" *)
| cliOther (err : error).            (* an error of os.Stat returned as it is *)

Inductive CliLog : Type :=
| LogCreatingOutDir (dir : string)   (* "creating output directory: %s" *)
| LogStarting                        (* "starting audio conversion..." *)
| LogSourceDir (dir : string)        (* "source directory: %s" *)
| LogTargetExt (ext : string)        (* "target extension: %s" *)
| LogOutputDir (dir : string).       (* "output directory: %s" *)

(** What the system answers to Action: os.Stat, errors.Is(err,
    os.ErrNotExist), os.MkdirAll. *)
Record Sys : Type := {
  sys_Stat : string -> option error;
  sys_IsNotExist : error -> bool;
  sys_MkdirAll : string -> option error
}.

Inductive CliCall : Type :=
| CliStat (path : string)
| CliMkdirAll (path : string)
| CliLogf (m : CliLog)
| CliConvertFile (o : ConvertFileOpts) (r : option error * fileActionType)
                 (calls : list Call).

(** Action returns a value of its own, or what ConvertDir returns for the
    options it is given. *)
Inductive ActionResult : Type :=
| Returns (err : option cliError)
| ReturnsConvertDir (opts : ConvertDirOpts).

Definition dirOptsOf (f : Flags) : ConvertDirOpts :=
  {| Command := flag_command f;
     Dir := flag_dir f;
     Sources := flag_sources f;
     Except := flag_except f;
     TargetExtension := flag_target f;
     OutDir := flag_out_dir f;
     DeleteOriginal := flag_delete f;
     Quiet := flag_quiet f |}.

Definition fileOptsOf (f : Flags) (path : string) : ConvertFileOpts :=
  {| cfCommand := flag_command f;
     cfPath := path;
     cfTargetExtension := flag_target f;
     cfOutDir := flag_out_dir f;
     cfDeleteOriginal := flag_delete f;
     cfQuiet := flag_quiet f |}.

Definition isConvertFile (c : CliCall) : bool :=
  match c with
  | CliConvertFile _ _ _ => true
  | _ => false
  end.

Section Cli.
Context {P : PathOps}.

(** [for _, f := range c.StringSlice("files")]: ConvertFile on each file,
    its error appended to [errors] when there is one.  [world k] is what
    the outside world answers during the k-th call. *)
Fixpoint convertFiles (f : Flags) (world : nat -> Env) (k : nat)
    (files : list string) (errors : list error) : list error * list CliCall :=
  match files with
  | [] => (errors, [])
  | path :: rest =>
      let (r, calls) := runConvertFile (fileOptsOf f path) (world k) in
      let errors' := match fst r with
                     | Some err => errors ++ [err]
                     | None => errors
                     end in
      let (errs, tr) := convertFiles f world (S k) rest errors' in
      (errs, CliConvertFile (fileOptsOf f path) r calls :: tr)
  end.

(** The Action of the command.  The loop over the collected errors only
    builds a value with fmt.Errorf and drops it, so the errors of the files
    have no effect on what is returned. *)
Definition Action (f : Flags) (sys : Sys) (world : nat -> Env)
  : ActionResult * list CliCall :=
  let dir := flag_dir f in
  let out := flag_out_dir f in
  if (String.eqb dir EmptyString && (length (flag_files f) <? 0)%nat)%bool then
    (Returns (Some cliRequired), [])
  else if negb (String.eqb dir EmptyString) then
    match sys_Stat sys dir with
    | Some err =>
        (Returns (Some (if sys_IsNotExist sys err
                        then cliDirNotExist dir else cliOther err)),
         [CliStat dir])
    | None =>
        let starting :=
          if flag_quiet f then []
          else [CliLogf LogStarting; CliLogf (LogSourceDir dir);
                CliLogf (LogTargetExt (flag_target f)); CliLogf (LogOutputDir out)] in
        match sys_Stat sys out with
        | Some err =>
            if sys_IsNotExist sys err then
              if flag_create_out_dir f then
                let creating :=
                  if flag_quiet f then [] else [CliLogf (LogCreatingOutDir out)] in
                match sys_MkdirAll sys out with
                | Some err =>
                    (Returns (Some (cliMkdirFailed err)),
                     [CliStat dir; CliStat out] ++ creating ++ [CliMkdirAll out])
                | None =>
                    (ReturnsConvertDir (dirOptsOf f),
                     [CliStat dir; CliStat out] ++ creating ++ [CliMkdirAll out]
                     ++ starting)
                end
              else
                (Returns (Some (cliDirNotExist out)), [CliStat dir; CliStat out])
            else
              (Returns (Some (cliOther err)), [CliStat dir; CliStat out])
        | None =>
            (ReturnsConvertDir (dirOptsOf f), [CliStat dir; CliStat out] ++ starting)
        end
    end
  else if (0 <? length (flag_files f))%nat then
    let (errors, tr) := convertFiles f world 0 (flag_files f) [] in
    (Returns None, tr)
  else (Returns None, []).

End Cli.

Definition mkFlags (dir : string) (files : list string) (create : bool) : Flags :=
  {| flag_command := template;
     flag_dir := dir;
     flag_files := files;
     flag_target := ".mp3";
     flag_except := [];
     flag_sources := [];
     flag_out_dir := "out";
     flag_create_out_dir := create;
     flag_delete := false;
     flag_quiet := false |}.

Definition noSuchFile : error := errExternal "no such file or directory".

(** music exists, out does not. *)
Definition sysNoOut : Sys :=
  {| sys_Stat := fun p => if String.eqb p "out" then Some noSuchFile else None;
     sys_IsNotExist := fun _ => true;
     sys_MkdirAll := fun _ => None |}.

(** Everything exists. *)
Definition sysAll : Sys :=
  {| sys_Stat := fun _ => None;
     sys_IsNotExist := fun _ => true;
     sys_MkdirAll := fun _ => None |}.

(* ================================================================== *)
(** ** splitCommand of the flag-based program

    The earlier main.go splits the command line with a regular expression
    of two alternatives and then removes the quotes of a match that starts
    and ends with the same quote.  A match is either a longest run of
    characters that are neither white space nor quotes (single or double),
    or a quote, the characters up to the next quote of either kind, and
    that quote; the two alternatives start with different characters, and a
    character at which neither applies is passed over. *)

Module Regexp.

Definition dquote : ascii := ascii_of_nat 34.
Definition squote : ascii := ascii_of_nat 39.
Definition space : ascii := ascii_of_nat 32.

(** [\s] of the Go regular expressions: tab, new line, form feed, carriage
    return, space. *)
Definition isSpace (c : ascii) : bool :=
  match nat_of_ascii c with
  | 9 | 10 | 12 | 13 | 32 => true
  | _ => false
  end.

Definition isQuote (c : ascii) : bool := Ascii.eqb c dquote || Ascii.eqb c squote.

(** A character other than white space and quotes. *)
Definition plain (c : ascii) : bool := negb (isSpace c || isQuote c).

(** First alternative at the head of [l]: the longest run of plain
    characters, and what follows. *)
Fixpoint spanPlain (l : list ascii) : list ascii * list ascii :=
  match l with
  | c :: r =>
      if plain c then let (w, rest) := spanPlain r in (c :: w, rest)
      else ([], l)
  | [] => ([], [])
  end.

(** End of the second alternative at the head of [l]: the characters
    before the next quote, that quote, and what follows; nothing when there
    is no quote. *)
Fixpoint untilQuote (l : list ascii) : option (list ascii * ascii * list ascii) :=
  match l with
  | [] => None
  | c :: r =>
      if isQuote c then Some ([], c, r)
      else match untilQuote r with
           | Some (w, q, rest) => Some (c :: w, q, rest)
           | None => None
           end
  end.

(** [re.FindAllString(command, -1)]: the successive matches, from left to
    right, none overlapping. *)
Fixpoint findAll (fuel : nat) (l : list ascii) : list (list ascii) :=
  match fuel with
  | O => []
  | S fuel' =>
      match l with
      | [] => []
      | c :: r =>
          if plain c then
            let (w, rest) := spanPlain l in w :: findAll fuel' rest
          else if isQuote c then
            match untilQuote r with
            | Some (w, q, rest) => (c :: w ++ [q]) :: findAll fuel' rest
            | None => findAll fuel' r
            end
          else findAll fuel' r
      end
  end.

(** The loop that removes the quotes: a match longer than one character
    whose first character is a quote and whose last character is the same
    quote loses both, [match[1 : len(match)-1]]. *)
Definition unquote (m : list ascii) : list ascii :=
  match m with
  | c :: r =>
      if (1 <? length m)%nat && isQuote c && Ascii.eqb (last r c) c
      then removelast r
      else m
  | [] => m
  end.

Definition splitChars (l : list ascii) : list (list ascii) :=
  map unquote (findAll (length l) l).

(** splitCommand (regular-expression version) *)
Definition splitCommand (command : string) : list string :=
  map string_of_list_ascii (splitChars (list_ascii_of_string command)).

(** An argument as it is written on a command line: a bare word, or a text
    between two quotes of the same kind. *)
Inductive Arg : Type :=
| Bare (w : list ascii)
| Quoted (q : ascii) (text : list ascii).

Definition written (a : Arg) : list ascii :=
  match a with
  | Bare w => w
  | Quoted q text => q :: text ++ [q]
  end.

Definition meant (a : Arg) : list ascii :=
  match a with
  | Bare w => w
  | Quoted _ text => text
  end.

(** A bare word is not empty and has neither white space nor quotes; a
    quoted text has no quote of either kind. *)
Definition wellWritten (a : Arg) : Prop :=
  match a with
  | Bare w => w <> [] /\ Forall (fun c => plain c = true) w
  | Quoted q text => isQuote q = true /\ Forall (fun c => isQuote c = false) text
  end.

(** The arguments written one after the other, a space between two. *)
Fixpoint commandLine (args : list Arg) : list ascii :=
  match args with
  | [] => []
  | [a] => written a
  | a :: rest => written a ++ space :: commandLine rest
  end.

(** What follows the first argument on the command line. *)
Definition restOfLine (args : list Arg) : list ascii :=
  match args with
  | [] => []
  | _ :: _ => space :: commandLine args
  end.

End Regexp.

(** The default command for the files my song.wav and out/my song.mp3, as
    the template writes it: the two file names between double quotes. *)
Definition ffmpegArgs : list Regexp.Arg :=
  [ Regexp.Bare (list_ascii_of_string "ffmpeg");
    Regexp.Bare (list_ascii_of_string "-y");
    Regexp.Bare (list_ascii_of_string "-i");
    Regexp.Quoted Regexp.dquote (list_ascii_of_string "my song.wav");
    Regexp.Quoted Regexp.dquote (list_ascii_of_string "out/my song.mp3") ].

(** A file name with an apostrophe, between double quotes. *)
Definition apostropheArgs : list Regexp.Arg :=
  [ Regexp.Bare (list_ascii_of_string "ffmpeg");
    Regexp.Quoted Regexp.dquote (list_ascii_of_string "it's.wav") ].

(* ================================================================== *)
(** * Properties *)

(** ** Lists of goroutines *)

Lemma countIf_app f gs hs : countIf f (gs ++ hs) = countIf f gs + countIf f hs.
Proof.
  unfold countIf. now rewrite filter_app, length_app.
Qed.

Lemma countIf_nil f : countIf f [] = 0.
Proof. reflexivity. Qed.

Lemma countIf_cons f g gs : countIf f (g :: gs) = b2n (f (snd g)) + countIf f gs.
Proof.
  unfold countIf. simpl. now destruct (f (snd g)).
Qed.

Lemma countIf_updateAt f gs : forall i p pc p' pc',
  nth_error gs i = Some (p, pc) ->
  countIf f (updateAt i (p', pc') gs) + b2n (f pc) = countIf f gs + b2n (f pc').
Proof.
  induction gs as [|g gs IH]; intros [|i] p pc p' pc' H; simpl in H; try discriminate.
  - injection H as ->. simpl. rewrite !countIf_cons. simpl. lia.
  - simpl. rewrite !countIf_cons. specialize (IH _ _ _ p' pc' H). lia.
Qed.

Lemma countIf_zero f gs :
  countIf f gs = 0 -> forall g, In g gs -> f (snd g) = false.
Proof.
  induction gs as [|h gs IH]; intros H g Hin; [destruct Hin|].
  rewrite countIf_cons in H. destruct Hin as [->|Hin].
  - destruct (f (snd g)); [discriminate|reflexivity].
  - apply IH; [lia|assumption].
Qed.

Lemma countIf_all f gs :
  (forall g, In g gs -> f (snd g) = false) -> countIf f gs = 0.
Proof.
  induction gs as [|h gs IH]; intros H; [reflexivity|].
  rewrite countIf_cons, IH.
  - rewrite (H h); [reflexivity|now left].
  - intros g Hg. apply H. now right.
Qed.

Lemma updateAt_length {A} (l : list A) : forall i x, length (updateAt i x l) = length l.
Proof.
  induction l as [|y l IH]; intros [|i] x; simpl; auto.
Qed.

Lemma map_fst_updateAt (gs : list (string * Pc)) : forall i p pc pc',
  nth_error gs i = Some (p, pc) ->
  map fst (updateAt i (p, pc') gs) = map fst gs.
Proof.
  induction gs as [|g gs IH]; intros [|i] p pc pc' H; simpl in H; try discriminate.
  - injection H as ->. reflexivity.
  - simpl. f_equal. eapply IH; eauto.
Qed.

Lemma nth_error_updateAt {A} (l : list A) : forall i j x,
  nth_error (updateAt i x l) j =
  if Nat.eqb i j then option_map (fun _ => x) (nth_error l j) else nth_error l j.
Proof.
  induction l as [|y l IH]; intros [|i] [|j] x; simpl; auto.
  now destruct (Nat.eqb i j).
Qed.

Lemma In_updateAt {A} (l : list A) : forall i x y,
  In y (updateAt i x l) -> y = x \/ In y l.
Proof.
  induction l as [|z l IH]; intros [|i] x y H; simpl in *; auto.
  - destruct H; auto.
  - destruct H as [H|H]; auto. apply IH in H. tauto.
Qed.

(** ** Case analysis of one step *)

Section Steps.
Context {P : PathOps}.
Variable o : ConvertDirOpts.
Variable maxGoroutines : nat.

(** The goroutine steps, as a relation between the position before and
    after and the shared state; it is what [stepGo] computes. *)
Lemma stepGo_inv i env s s' :
  stepGo o maxGoroutines i env s = Some s' ->
  exists p pc pc' ev,
    nth_error (goroutines s) i = Some (p, pc) /\
    main s' = main s /\ logged s' = logged s /\
    goroutines s' = updateAt i (p, pc') (goroutines s) /\
    trace s' = trace s ++ ev /\
    ( (pc = pcAcquire /\ pc' = pcBody /\ sem s < maxGoroutines /\
       sem s' = S (sem s) /\ wg s' = wg s /\
       collectedErrors s' = collectedErrors s /\ stats s' = stats s /\
       ev = [EvAcquire i])
   \/ (pc = pcBody /\ shouldProcess o p = false /\ pc' = pcRelease /\
       sem s' = sem s /\ wg s' = wg s /\
       collectedErrors s' = collectedErrors s /\ stats s' = stats s /\
       ev = [EvNotProcessed i])
   \/ (exists err a calls,
       pc = pcBody /\ shouldProcess o p = true /\
       runConvertFile (fileOpts o p) env = ((err, a), calls) /\
       pc' = match err with Some e => pcAddError e a | None => pcStats a end /\
       sem s' = sem s /\ wg s' = wg s /\
       collectedErrors s' = collectedErrors s /\ stats s' = stats s /\
       ev = [EvConvertFile i (err, a) calls])
   \/ (exists err a,
       pc = pcAddError err a /\ pc' = pcStats a /\
       sem s' = sem s /\ wg s' = wg s /\
       collectedErrors s' = collectedErrors s ++ [err] /\ stats s' = stats s /\
       ev = [])
   \/ (exists a,
       pc = pcStats a /\ pc' = pcRelease /\
       sem s' = sem s /\ wg s' = wg s /\
       collectedErrors s' = collectedErrors s /\ stats s' = count a (stats s) /\
       ev = [EvStat i a])
   \/ (pc = pcRelease /\ pc' = pcWgDone /\
       sem s = S (sem s') /\ wg s' = wg s /\
       collectedErrors s' = collectedErrors s /\ stats s' = stats s /\
       ev = [EvRelease i])
   \/ (pc = pcWgDone /\ pc' = pcExit /\
       sem s' = sem s /\ wg s = S (wg s') /\
       collectedErrors s' = collectedErrors s /\ stats s' = stats s /\
       ev = [EvDone i]) ).
Proof.
  unfold stepGo. intros H.
  destruct (nth_error (goroutines s) i) as [[p pc]|] eqn:Hn; [|discriminate].
  exists p, pc.
  destruct pc.
  - destruct (Nat.ltb_spec (sem s) maxGoroutines); [|discriminate].
    injection H as <-. exists pcBody, [EvAcquire i]. simpl. intuition.
  - destruct (shouldProcess o p) eqn:Hsp.
    + destruct (runConvertFile (fileOpts o p) env) as [[err a] calls] eqn:Hcf.
      injection H as <-.
      exists (match err with Some e => pcAddError e a | None => pcStats a end),
             [EvConvertFile i (err, a) calls].
      simpl. repeat (split; [reflexivity|]).
      right; right; left. exists err, a, calls. intuition.
    + injection H as <-. exists pcRelease, [EvNotProcessed i]. simpl. intuition.
  - injection H as <-. exists (pcStats a), []. simpl.
    repeat (split; [reflexivity|]).
    do 3 right; left. exists err, a. intuition.
  - injection H as <-. exists pcRelease, [EvStat i a]. simpl.
    repeat (split; [reflexivity|]).
    do 4 right; left. exists a. intuition.
  - destruct (sem s) eqn:Hs; [discriminate|].
    injection H as <-. exists pcWgDone, [EvRelease i]. simpl.
    repeat (split; [reflexivity|]).
    do 5 right; left. intuition.
  - destruct (wg s) eqn:Hw; [discriminate|].
    injection H as <-. exists pcExit, [EvDone i]. simpl.
    repeat (split; [reflexivity|]).
    do 6 right. intuition.
  - discriminate.
Qed.

Lemma stepMain_inv s s' :
  stepMain o s = Some s' ->
  (exists m rest,
      main s = mRun (OpLog m :: rest) /\ main s' = mRun rest /\
      goroutines s' = goroutines s /\ sem s' = sem s /\ wg s' = wg s /\
      collectedErrors s' = collectedErrors s /\ stats s' = stats s /\
      logged s' = logged s ++ [m] /\ trace s' = trace s)
  \/ (exists err rest,
      main s = mRun (OpAddError err :: rest) /\ main s' = mRun rest /\
      goroutines s' = goroutines s /\ sem s' = sem s /\ wg s' = wg s /\
      collectedErrors s' = collectedErrors s ++ [err] /\ stats s' = stats s /\
      logged s' = logged s /\ trace s' = trace s)
  \/ (exists p rest,
      main s = mRun (OpGo p :: rest) /\ main s' = mRun rest /\
      goroutines s' = goroutines s ++ [(p, pcAcquire)] /\
      sem s' = sem s /\ wg s' = S (wg s) /\
      collectedErrors s' = collectedErrors s /\ stats s' = stats s /\
      logged s' = logged s /\
      trace s' = trace s ++ [EvSpawn (length (goroutines s)) p])
  \/ (main s = mRun [] /\ wg s = 0 /\ main s' = mReport /\
      goroutines s' = goroutines s /\ sem s' = sem s /\ wg s' = wg s /\
      collectedErrors s' = collectedErrors s /\ stats s' = stats s /\
      logged s' = logged s /\ trace s' = trace s)
  \/ (main s = mReport /\ s' = report o s).
Proof.
  unfold stepMain. intros H.
  destruct (main s) as [[|[m|err|p] rest]| |r] eqn:Hm; try discriminate.
  - destruct (Nat.eqb_spec (wg s) 0); [|discriminate].
    injection H as <-. do 3 right; left. simpl. intuition.
  - injection H as <-. left. exists m, rest. simpl. intuition.
  - injection H as <-. right; left. exists err, rest. simpl. intuition.
  - injection H as <-. right; right; left. exists p, rest. simpl. intuition.
  - injection H as <-. do 4 right. intuition.
Qed.

Lemma report_fields s :
  goroutines (report o s) = goroutines s /\ sem (report o s) = sem s /\
  wg (report o s) = wg s /\ collectedErrors (report o s) = collectedErrors s /\
  stats (report o s) = stats s /\ trace (report o s) = trace s /\
  exists r, main (report o s) = mReturned r.
Proof.
  unfold report. destruct (0 <? length (collectedErrors s))%nat; simpl;
    repeat split; eauto.
Qed.

End Steps.

(** ** Invariants of the machine *)

Section Invariants.
Context {P : PathOps}.
Variable o : ConvertDirOpts.
Variable t : FsRoot.
Variable maxGoroutines : nat.

Lemma exec_invariant (I : State -> Prop) :
  (forall c s s', I s -> step o maxGoroutines c s = Some s' -> I s') ->
  forall sched s s', I s -> exec o maxGoroutines sched s = Some s' -> I s'.
Proof.
  intros Hstep. induction sched as [|c sched IH]; intros s s' Hs H; simpl in H.
  - now injection H as <-.
  - destruct (step o maxGoroutines c s) as [s1|] eqn:Hc; [|discriminate].
    eapply IH; [|exact H]. eapply Hstep; eauto.
Qed.

Lemma exec_app sched1 : forall sched2 s,
  exec o maxGoroutines (sched1 ++ sched2) s =
  match exec o maxGoroutines sched1 s with
  | Some s1 => exec o maxGoroutines sched2 s1
  | None => None
  end.
Proof.
  induction sched1 as [|c sched1 IH]; intros sched2 s; simpl; [reflexivity|].
  destruct (step o maxGoroutines c s); auto.
Qed.


Lemma PoolInv_initial : PoolInv maxGoroutines (initial o t maxGoroutines).
Proof.
  split; simpl; auto. lia.
Qed.

Lemma PoolInv_step c s s' :
  PoolInv maxGoroutines s -> step o maxGoroutines c s = Some s' -> PoolInv maxGoroutines s'.
Proof.
  intros [Hsem Hcap Hwg Hafter] H. unfold inFlight in *.
  destruct c as [|i env]; simpl in H.
  - apply stepMain_inv in H.
    destruct H as [(m & rest & Hm & Hm' & Hg & Hs & Hw & _)
                  |[(e & rest & Hm & Hm' & Hg & Hs & Hw & _)
                  |[(p & rest & Hm & Hm' & Hg & Hs & Hw & _)
                  |[(Hm & Hw0 & Hm' & Hg & Hs & Hw & _)
                  |(Hm & ->)]]]].
    + split; unfold inFlight; rewrite ?Hm', ?Hg, ?Hs, ?Hw; auto.
    + split; unfold inFlight; rewrite ?Hm', ?Hg, ?Hs, ?Hw; auto.
    + split; unfold inFlight; rewrite ?Hm', ?Hg, ?Hs, ?Hw, ?countIf_app; auto.
      * rewrite countIf_cons, countIf_nil. simpl. lia.
      * rewrite countIf_cons, countIf_nil. simpl. lia.
    + split; unfold inFlight; rewrite ?Hm', ?Hg, ?Hs, ?Hw; auto.
    + destruct (report_fields o s) as (Hg & Hs & Hw & _ & _ & _ & r & Hr).
      rewrite Hm in Hafter.
      split; unfold inFlight; rewrite ?Hr, ?Hg, ?Hs, ?Hw; auto.
  - apply stepGo_inv in H.
    destruct H as (p & pc & pc' & ev & Hn & Hm & _ & Hg & _ & Hcases).
    pose proof (countIf_updateAt holdsSlot _ _ p pc' Hn) as Hh.
    pose proof (countIf_updateAt live _ _ p pc' Hn) as Hl.
    assert (Hlive : countIf live (goroutines s) > 0 \/ pc = pcExit).
    { destruct pc; auto; left;
        pose proof (countIf_updateAt live _ _ p pcExit Hn) as Hx;
        simpl in Hx; lia. }
    assert (Hrun : pc <> pcExit -> exists ops, main s = mRun ops).
    { intros Hne. destruct (main s); eauto; destruct Hlive; try contradiction; lia. }
    rewrite <- Hg in Hh, Hl.
    destruct Hcases as
      [(-> & -> & Hlt & Hs & Hw & _)
      |[(-> & _ & -> & Hs & Hw & _)
      |[(err & a & calls & -> & _ & _ & -> & Hs & Hw & _)
      |[(err & a & -> & -> & Hs & Hw & _)
      |[(a & -> & -> & Hs & Hw & _)
      |[(-> & -> & Hs & Hw & _)
      |(-> & -> & Hs & Hw & _)]]]]]];
      try (destruct err); simpl in Hh, Hl;
      (split; unfold inFlight; rewrite ?Hm; try lia;
       destruct Hrun as [ops ->]; [discriminate|exact I]).
Qed.

Lemma PoolInv_reachable s : reachable o t maxGoroutines s -> PoolInv maxGoroutines s.
Proof.
  intros [sched H].
  eapply (exec_invariant (PoolInv maxGoroutines)); [apply PoolInv_step|apply PoolInv_initial|exact H].
Qed.

End Invariants.

(** ** The walk with the callback of ConvertDir *)

Lemma goPaths_app a b : goPaths (a ++ b) = goPaths a ++ goPaths b.
Proof.
  induction a as [|[m|e|p] a IH]; simpl; auto. now rewrite IH.
Qed.

Lemma opErrors_app a b : opErrors (a ++ b) = opErrors a ++ opErrors b.
Proof.
  induction a as [|[m|e|p] a IH]; simpl; auto. now rewrite IH.
Qed.

Lemma opLogs_app a b : opLogs (a ++ b) = opLogs a ++ opLogs b.
Proof.
  induction a as [|[m|e|p] a IH]; simpl; auto. now rewrite IH.
Qed.

Section WalkFacts.
Context {P : PathOps}.

(** The callback answers nil whatever it is given, so neither an entry nor
    a failed read stops the walk: every entry of the observed tree is
    visited, each regular file is started and each failure is recorded. *)
Lemma walk_walkFn :
  (forall d path ops, exists ops',
      walkDir walkFn path d ops = (retNil, ops ++ ops') /\
      goPaths ops' = filesUnder path d /\
      opErrors ops' = map asError (failuresUnder path d) /\
      opLogs ops' = [])
  /\
  (forall f path ops, exists ops',
      walkEntries walkFn path f ops = (retNil, ops ++ ops') /\
      goPaths ops' = filesIn path f /\
      opErrors ops' = map asError (failuresIn path f) /\
      opLogs ops' = []).
Proof.
  apply FsTree_mutind.
  - intros path ops. exists [OpGo path]. simpl. auto.
  - intros entries IH readErr path ops. simpl.
    destruct readErr as [err|]; simpl.
    + destruct (IH path (ops ++ [OpAddError (errAccessing path err)]))
        as (ops' & -> & Hg & He & Hl).
      exists (OpAddError (errAccessing path err) :: ops').
      rewrite <- app_assoc. simpl. rewrite Hg, He. auto.
    + destruct (IH path ops) as (ops' & -> & Hg & He & Hl).
      exists ops'. auto.
  - intros path ops. exists []. simpl. rewrite app_nil_r. auto.
  - intros name d IHd rest IHr path ops. simpl.
    destruct (IHd (Join path name) ops) as (ops1 & -> & Hg1 & He1 & Hl1).
    destruct (IHr path (ops ++ ops1)) as (ops2 & -> & Hg2 & He2 & Hl2).
    exists (ops1 ++ ops2).
    rewrite app_assoc, goPaths_app, opErrors_app, opLogs_app, map_app,
      Hg1, Hg2, He1, He2, Hl1, Hl2.
    auto.
Qed.

(** WalkDir returns nil to ConvertDir. *)
Lemma WalkDir_walkFn root t : exists ops,
  WalkDir walkFn root t [] = (None, ops) /\
  goPaths ops = regularFiles root t /\
  opErrors ops = map asError (accessFailures root t) /\
  opLogs ops = [].
Proof.
  unfold WalkDir. destruct t as [err|d]; simpl.
  - exists [OpAddError (errAccessing root err)]. auto.
  - destruct (proj1 walk_walkFn d root []) as (ops' & -> & Hg & He & Hl).
    exists ops'. auto.
Qed.

Lemma mainOps_goPaths o t n : goPaths (mainOps o t n) = regularFiles (Dir o) t.
Proof.
  unfold mainOps. destruct (WalkDir_walkFn (Dir o) t) as (ops & -> & Hg & _).
  rewrite !goPaths_app, Hg. destruct (Quiet o); simpl; now rewrite app_nil_r.
Qed.

Lemma mainOps_opErrors o t n :
  opErrors (mainOps o t n) = map asError (accessFailures (Dir o) t).
Proof.
  unfold mainOps. destruct (WalkDir_walkFn (Dir o) t) as (ops & -> & _ & He & _).
  rewrite !opErrors_app, He. destruct (Quiet o); simpl; now rewrite app_nil_r.
Qed.

Lemma mainOps_opLogs o t n : opLogs (mainOps o t n) = preamble o n.
Proof.
  unfold mainOps, preamble.
  destruct (WalkDir_walkFn (Dir o) t) as (ops & -> & _ & _ & Hl).
  rewrite !opLogs_app, Hl. destruct (Quiet o); reflexivity.
Qed.

End WalkFacts.

(** ** ConvertFile *)

Section ConvertFileFacts.
Context {P : PathOps}.

Ltac unfold_go :=
  unfold runConvertFile, ConvertFile, bind, ret, logUnlessQuiet, logPrintf,
    Rename, CopyFile, Generate, Run, Remove, call.

Ltac go_cases o env :=
  unfold_go;
  destruct (String.eqb (Ext (cfPath o)) (cfTargetExtension o)) eqn:Hext;
  [ destruct (String.eqb (cfPath o) (outputPathOf o)) eqn:Hsame;
    [ | destruct (cfDeleteOriginal o) eqn:Hdel;
        [ destruct (os_Rename env (cfPath o) (outputPathOf o)) eqn:Hren
        | destruct (copyFile env (cfPath o) (outputPathOf o)) eqn:Hcp ] ]
  | destruct (generateConvertCommand env (cfCommand o) (cfPath o) (outputPathOf o))
      as [command|gerr] eqn:Hgen;
    [ destruct (runCommand env command (cfQuiet o)) eqn:Hrun;
      [ | destruct (cfDeleteOriginal o) eqn:Hdel;
          [ destruct (os_Remove env (cfPath o)) eqn:Hrm | ] ]
    | ] ];
  destruct (cfQuiet o) eqn:Hq; simpl.

(** ConvertFile returns an error exactly when it returns fileActionFail. *)
Lemma ConvertFile_fail_iff o env :
  snd (fst (runConvertFile o env)) = fileActionFail <->
  fst (fst (runConvertFile o env)) <> None.
Proof.
  go_cases o env; split; intros H; congruence.
Qed.


(** C6.  A file that has the target extension and already sits at its
    output path: ConvertFile returns fileActionSkip with no error, and makes
    no call to the outside world besides at most the log line, so nothing
    is renamed, copied, run or deleted. *)
Theorem ConvertFile_in_place_skips (o : ConvertFileOpts) (env : Env) :
  Ext (cfPath o) = cfTargetExtension o ->
  cfPath o = outputPathOf o ->
  fst (runConvertFile o env) = (None, fileActionSkip) /\
  snd (runConvertFile o env) =
    (if cfQuiet o then [] else [CallLog (LogAlreadyThere (cfPath o))]) /\
  filter is_action (snd (runConvertFile o env)) = [] /\
  filter mutates (snd (runConvertFile o env)) = [].
Proof.
  intros He Hp. apply String.eqb_eq in He, Hp.
  unfold_go. rewrite He, Hp. destruct (cfQuiet o); simpl; auto.
Qed.

(** C5.  ConvertFile decides on the extension alone.  With the target
    extension it relocates: it never builds or runs the transcoding
    command, its action is Move, Skip or Fail, and unless the file is
    already at its output path its one call is the rename (DeleteOriginal)
    or the copy of the file to the output path, Move being returned exactly
    when that call succeeds.  With another extension it converts: it never
    renames or copies, its first call builds the command for the file and
    the output path, the command built is then run, and its action is
    Convert or Fail, Convert exactly when no error is returned. *)
Theorem ConvertFile_decision (o : ConvertFileOpts) (env : Env) :
  let err := fst (fst (runConvertFile o env)) in
  let a := snd (fst (runConvertFile o env)) in
  let calls := snd (runConvertFile o env) in
  (Ext (cfPath o) = cfTargetExtension o ->
     filter transcodes calls = [] /\
     (a = fileActionMove \/ a = fileActionSkip \/ a = fileActionFail) /\
     (cfPath o <> outputPathOf o ->
        filter is_action calls =
          [if cfDeleteOriginal o
           then CallRename (cfPath o) (outputPathOf o)
           else CallCopyFile (cfPath o) (outputPathOf o)] /\
        (a = fileActionMove <-> err = None) /\
        (a = fileActionFail <-> err <> None)))
  /\
  (Ext (cfPath o) <> cfTargetExtension o ->
     filter relocates calls = [] /\
     (a = fileActionConvert \/ a = fileActionFail) /\
     (a = fileActionConvert <-> err = None) /\
     exists rest,
       filter is_action calls =
         CallGenerate (cfCommand o) (cfPath o) (outputPathOf o) :: rest /\
       forall command,
         generateConvertCommand env (cfCommand o) (cfPath o) (outputPathOf o)
           = inl command ->
         exists rest', rest = CallRun command (cfQuiet o) :: rest').
Proof.
  split.
  - intros He. apply String.eqb_eq in He.
    go_cases o env; try congruence;
      (split; [reflexivity|]); (split; [tauto|]);
      intros Hne; try (apply String.eqb_eq in Hsame; contradiction);
      (split; [reflexivity|]); split; split; congruence.
  - intros He. apply String.eqb_neq in He.
    go_cases o env; try congruence;
      (split; [reflexivity|]); (split; [tauto|]);
      (split; [split; congruence|]);
      eexists; (split; [reflexivity|]);
      intros c Hc; try discriminate; injection Hc as <-; eexists; reflexivity.
Qed.

End ConvertFileFacts.

(** ** Files, counters and errors *)

Lemma shouldProcess_indep o p q : shouldProcess o p = shouldProcess o q.
Proof. reflexivity. Qed.

Lemma total_count a st : total (count a st) = (total st + 1)%Z.
Proof. destruct a; unfold total; simpl; lia. Qed.

Lemma failed_count a st :
  failedFiles (count a st) =
  (failedFiles st + match a with fileActionFail => 1 | _ => 0 end)%Z.
Proof. destruct a; simpl; lia. Qed.

Section RunInvariant.
Context {P : PathOps}.
Variable o : ConvertDirOpts.
Variable t : FsRoot.
Variable maxGoroutines : nat.


Lemma RunInv_initial : RunInv o t (initial o t maxGoroutines).
Proof.
  split; simpl.
  - apply mainOps_goPaths.
  - intros e He. right. now rewrite mainOps_opErrors.
  - intros p pc [].
  - intros p. now destruct (shouldProcess o p).
  - split; reflexivity.
Qed.

Lemma RunInv_step c s s' :
  RunInv o t s -> step o maxGoroutines c s = Some s' -> RunInv o t s'.
Proof.
  intros [Hspawn Herrs Helig Htotal Hfailed] H.
  destruct c as [|i env]; simpl in H.
  - apply stepMain_inv in H.
    destruct H as [(m & rest & Hm & Hm' & Hg & _ & _ & He & Hst & _)
                  |[(e & rest & Hm & Hm' & Hg & _ & _ & He & Hst & _)
                  |[(p & rest & Hm & Hm' & Hg & _ & _ & He & Hst & _)
                  |[(Hm & _ & Hm' & Hg & _ & _ & He & Hst & _)
                  |(Hm & ->)]]]].
    + rewrite Hm in *. simpl in *.
      split; rewrite ?Hm', ?Hg, ?He, ?Hst; simpl; auto.
    + rewrite Hm in *. simpl in *.
      split; rewrite ?Hm', ?Hg, ?He, ?Hst; simpl; auto.
      * intros e' He'. destruct (Herrs e' He') as [Hin|[->|Hin]]; auto.
        -- left. apply in_or_app. auto.
        -- left. apply in_or_app. simpl. auto.
      * rewrite length_app. simpl. lia.
    + rewrite Hm in *. simpl in *.
      split; rewrite ?Hm', ?Hg, ?He, ?Hst; simpl; auto.
      * rewrite map_app, <- app_assoc. exact Hspawn.
      * intros q pc Hin. apply in_app_or in Hin. destruct Hin as [Hin|[Heq|[]]].
        -- eauto.
        -- injection Heq as <- <-. discriminate.
      * intros q. rewrite countIf_app, countIf_cons, countIf_nil. simpl.
        rewrite Nat.add_0_r. apply Htotal.
      * rewrite countIf_app, countIf_cons, countIf_nil. simpl.
        rewrite Nat.add_0_r. exact Hfailed.
    + rewrite Hm in *. simpl in *.
      split; rewrite ?Hm', ?Hg, ?He, ?Hst; simpl; auto.
    + destruct (report_fields o s) as (Hg & _ & _ & He & Hst & _ & r & Hr).
      rewrite Hm in *. simpl in *.
      split; rewrite ?Hr, ?Hg, ?He, ?Hst; simpl; auto.
  - apply stepGo_inv in H.
    destruct H as (p & pc & pc' & ev & Hn & Hm & _ & Hg & _ & Hcases).
    pose proof (countIf_updateAt pastBody _ _ p pc' Hn) as Hpb.
    pose proof (countIf_updateAt statsFail _ _ p pc' Hn) as Hsf.
    rewrite <- Hg in Hpb, Hsf.
    assert (Hin : In (p, pc) (goroutines s)) by (eapply nth_error_In; eauto).
    assert (Helig' : pc' = pcRelease \/ pc' = pcWgDone \/ pc' = pcExit
                     \/ pc' = pcBody \/ (shouldProcess o p = true) ->
              forall q qc, In (q, qc) (goroutines s') -> afterCall qc = true ->
                           shouldProcess o q = true).
    { intros Hok q qc Hq Hac. rewrite Hg in Hq.
      apply In_updateAt in Hq. destruct Hq as [Heq|Hq]; [|eauto].
      injection Heq as -> ->.
      destruct Hok as [->|[->|[->|[->|Hok]]]]; try discriminate. exact Hok. }
    assert (Herrs' : (forall e, In e (collectedErrors s) -> In e (collectedErrors s')) ->
              forall e, In e (map asError (accessFailures (Dir o) t)) ->
              In e (collectedErrors s') \/ In e (opErrors (pendingOps (main s')))).
    { intros Hmono e He. rewrite Hm. destruct (Herrs e He); auto. }
    assert (Hspawn' : map fst (goroutines s') ++ goPaths (pendingOps (main s'))
                      = regularFiles (Dir o) t).
    { rewrite Hm, Hg. erewrite map_fst_updateAt; eauto. }
    assert (Hsame : countIf pastBody (goroutines s') = countIf pastBody (goroutines s) ->
              forall q, total (stats s) =
                if shouldProcess o q
                then Z.of_nat (countIf pastBody (goroutines s')) else 0%Z).
    { intros ->. exact Htotal. }
    destruct Hcases as
      [(-> & -> & _ & _ & _ & He & Hst & _)
      |[(-> & Hsp & -> & _ & _ & He & Hst & _)
      |[(err & a & calls & -> & Hsp & Hcf & -> & _ & _ & He & Hst & _)
      |[(err & a & -> & -> & _ & _ & He & Hst & _)
      |[(a & -> & -> & _ & _ & He & Hst & _)
      |[(-> & -> & _ & _ & He & Hst & _)
      |(-> & -> & _ & _ & He & Hst & _)]]]]]].
    + split; [exact Hspawn'| | | |].
      * apply Herrs'. now rewrite He.
      * apply Helig'. tauto.
      * rewrite Hst. apply Hsame. simpl in Hpb. lia.
      * rewrite Hst, He. simpl in Hsf. lia.
    + split; [exact Hspawn'| | | |].
      * apply Herrs'. now rewrite He.
      * apply Helig'. tauto.
      * intros q. rewrite Hst, (Htotal q).
        rewrite (shouldProcess_indep o q p), Hsp. reflexivity.
      * rewrite Hst, He. simpl in Hsf. lia.
    + assert (Hfa : a = fileActionFail <-> err <> None).
      { pose proof (ConvertFile_fail_iff (fileOpts o p) env) as Hi.
        rewrite Hcf in Hi. exact Hi. }
      split; [exact Hspawn'| | | |].
      * apply Herrs'. now rewrite He.
      * apply Helig'. tauto.
      * rewrite Hst. apply Hsame. destruct err; simpl in Hpb; lia.
      * rewrite Hst, He. destruct err as [e|]; simpl in Hsf; [lia|].
        assert (a <> fileActionFail) by (intros Ha; apply Hfa in Ha; congruence).
        destruct a; simpl in Hsf; try contradiction; lia.
    + split; [exact Hspawn'| | | |].
      * apply Herrs'. rewrite He. intros e Hin'. apply in_or_app. auto.
      * apply Helig'. do 4 right. apply (Helig p (pcAddError err a)); auto.
      * rewrite Hst. apply Hsame. simpl in Hpb. lia.
      * rewrite Hst, He, length_app. simpl. destruct a; simpl in Hsf; lia.
    + assert (Hsp : shouldProcess o p = true)
        by (apply (Helig p (pcStats a)); auto).
      split; [exact Hspawn'| | | |].
      * apply Herrs'. now rewrite He.
      * apply Helig'. tauto.
      * intros q. rewrite Hst, total_count, (Htotal q).
        rewrite (shouldProcess_indep o q p), Hsp. simpl in Hpb. lia.
      * rewrite Hst, He, failed_count. destruct a; simpl in Hsf; lia.
    + split; [exact Hspawn'| | | |].
      * apply Herrs'. now rewrite He.
      * apply Helig'. tauto.
      * rewrite Hst. apply Hsame. simpl in Hpb. lia.
      * rewrite Hst, He. simpl in Hsf. lia.
    + split; [exact Hspawn'| | | |].
      * apply Herrs'. now rewrite He.
      * apply Helig'. tauto.
      * rewrite Hst. apply Hsame. simpl in Hpb. lia.
      * rewrite Hst, He. simpl in Hsf. lia.
Qed.

Lemma RunInv_reachable s : reachable o t maxGoroutines s -> RunInv o t s.
Proof.
  intros [sched H].
  eapply (exec_invariant o maxGoroutines (RunInv o t));
    [apply RunInv_step|apply RunInv_initial|exact H].
Qed.

End RunInvariant.

(** ** Order of the events *)

Lemma snoc_split {A} (l : list A) e t1 ev t2 :
  l ++ [e] = t1 ++ ev :: t2 ->
  (t1 = l /\ ev = e /\ t2 = []) \/
  (exists t2', t2 = t2' ++ [e] /\ l = t1 ++ ev :: t2').
Proof.
  intros H. destruct t2 as [|x t2' _] using rev_ind.
  - left. apply app_inj_tail in H. destruct H as [-> ->]. auto.
  - right. exists t2'.
    replace (t1 ++ ev :: t2' ++ [x]) with ((t1 ++ ev :: t2') ++ [x]) in H
      by (rewrite <- app_assoc; reflexivity).
    apply app_inj_tail in H. destruct H as [-> ->]. auto.
Qed.

Lemma order_snoc (tr : list Event) (e : Event) (Q : Event -> bool)
    (R : list Event -> Prop) :
  (forall t1 ev t2, tr = t1 ++ ev :: t2 -> Q ev = true -> R t1) ->
  (Q e = true -> R tr) ->
  forall t1 ev t2, tr ++ [e] = t1 ++ ev :: t2 -> Q ev = true -> R t1.
Proof.
  intros Hold Hnew t1 ev t2 H HQ.
  apply snoc_split in H. destruct H as [(-> & -> & _)|(t2' & _ & ->)]; eauto.
Qed.

Section TraceInvariant.
Context {P : PathOps}.
Variable o : ConvertDirOpts.
Variable t : FsRoot.
Variable maxGoroutines : nat.

(** What a step of goroutine [i] adds to the trace. *)
Lemma stepGo_events i env s s' :
  stepGo o maxGoroutines i env s = Some s' ->
  exists p pc pc' ev,
    nth_error (goroutines s) i = Some (p, pc) /\
    goroutines s' = updateAt i (p, pc') (goroutines s) /\
    trace s' = trace s ++ ev /\
    (ev = [] \/ exists e, ev = [e]) /\
    pc' <> pcAcquire /\
    (pc = pcAcquire -> ev = [EvAcquire i]) /\
    (forall e k, In e ev -> acquires k e = true -> k = i) /\
    (forall e k, In e ev -> decides k e = true -> k = i /\ pc = pcBody) /\
    ((afterCall pc' || pastBody pc') = true ->
       (afterCall pc || pastBody pc) = true \/
       if shouldProcess o p
       then exists env, ev = [EvConvertFile i (fst (runConvertFile (fileOpts o p) env))
                                            (snd (runConvertFile (fileOpts o p) env))]
       else ev = [EvNotProcessed i]) /\
    (forall e, In e ev ->
       match e with
       | EvConvertFile k r calls =>
           k = i /\ shouldProcess o p = true /\
           exists env, runConvertFile (fileOpts o p) env = (r, calls)
       | EvNotProcessed k => k = i /\ shouldProcess o p = false
       | _ => True
       end) /\
    (pc' = pcWgDone -> ev = [EvRelease i]) /\
    (pc' = pcExit -> pc = pcWgDone).
Proof.
  intros H. apply stepGo_inv in H.
  destruct H as (p & pc & pc' & ev & Hn & _ & _ & Hg & Ht & Hcases).
  exists p, pc, pc', ev. repeat (split; [assumption|]).
  destruct Hcases as
      [(-> & -> & _ & _ & _ & _ & _ & ->)
      |[(-> & Hsp & -> & _ & _ & _ & _ & ->)
      |[(err & a & calls & -> & Hsp & Hcf & -> & _ & _ & _ & _ & ->)
      |[(err & a & -> & -> & _ & _ & _ & _ & ->)
      |[(a & -> & -> & _ & _ & _ & _ & ->)
      |[(-> & -> & _ & _ & _ & _ & ->)
      |(-> & -> & _ & _ & _ & _ & ->)]]]]]];
    (split; [eauto|]);
    (split; [try destruct err; discriminate|]);
    (split; [intros; congruence|]);
    (split; [intros e k Hin; simpl in Hin;
             first [contradiction
                   |destruct Hin as [<-|[]]; simpl; intros Hk;
                    try discriminate; apply Nat.eqb_eq in Hk; auto]|]);
    (split; [intros e k Hin; simpl in Hin;
             first [contradiction
                   |destruct Hin as [<-|[]]; simpl; intros Hk;
                    try discriminate; apply Nat.eqb_eq in Hk; auto]|]);
    (split; [|split; [|split]]);
    try solve [simpl; intros Hpc; try discriminate; auto];
    try solve [intros e Hin; simpl in Hin;
               first [contradiction|destruct Hin as [<-|[]]; simpl; eauto]];
    try solve [try destruct err; intros; congruence].
  - intros _. right. rewrite Hsp. reflexivity.
  - intros _. right. rewrite Hsp. exists env. now rewrite Hcf.
Qed.


Lemma TraceInv_initial : TraceInv o (initial o t maxGoroutines).
Proof.
  split; simpl.
  - intros [|i] p pc H; discriminate.
  - intros [|i] p pc H; discriminate.
  - intros i ev [].
  - intros [|? ?] ev t2 i H; discriminate.
  - intros [|? ?] ev t2 i H; discriminate.
  - intros [|i] p pc H; discriminate.
  - intros i r calls [].
  - intros i [].
  - intros [|i] p pc H; discriminate.
Qed.

Lemma nth_error_snoc {A} (l : list A) x i y :
  nth_error (l ++ [x]) i = Some y ->
  nth_error l i = Some y \/ (i = length l /\ y = x).
Proof.
  intros H. destruct (Nat.lt_ge_cases i (length l)) as [Hlt|Hge].
  - rewrite nth_error_app1 in H by assumption. auto.
  - rewrite nth_error_app2 in H by assumption.
    destruct (i - length l) as [|k] eqn:E; simpl in H.
    + injection H as <-. right. split; [lia|reflexivity].
    + destruct k; discriminate.
Qed.

Lemma TraceInv_step c s s' :
  TraceInv o s -> step o maxGoroutines c s = Some s' -> TraceInv o s'.
Proof.
  intros [Hsp Hacq Hex Hao Hdo Hdec Hcalls Hskip Hrel] H.
  destruct c as [|i env]; simpl in H.
  - apply stepMain_inv in H.
    destruct H as [(m & rest & _ & _ & Hg & _ & _ & _ & _ & _ & Ht)
                  |[(e & rest & _ & _ & Hg & _ & _ & _ & _ & _ & Ht)
                  |[(p & rest & _ & _ & Hg & _ & _ & _ & _ & _ & Ht)
                  |[(_ & _ & _ & Hg & _ & _ & _ & _ & _ & Ht)
                  |(_ & ->)]]]].
    + split; rewrite ?Hg, ?Ht; assumption.
    + split; rewrite ?Hg, ?Ht; assumption.
    + split; rewrite ?Hg, ?Ht.
      * intros i q pc Hn. apply in_or_app.
        apply nth_error_snoc in Hn. destruct Hn as [Hn|[-> Heq]].
        -- left. eauto.
        -- injection Heq as -> ->. right. now left.
      * intros i q pc Hn Hne. apply in_or_app.
        apply nth_error_snoc in Hn. destruct Hn as [Hn|[-> Heq]].
        -- left. eauto.
        -- injection Heq as -> ->. contradiction.
      * intros i ev Hin HQ. rewrite length_app. simpl.
        apply in_app_or in Hin. destruct Hin as [Hin|[<-|[]]].
        -- specialize (Hex i ev Hin HQ). lia.
        -- discriminate.
      * intros t1 ev t2 i. apply (@order_snoc _ _ (acquires i)
          (fun t1 => exists p, In (EvSpawn i p) t1)); [eauto|discriminate].
      * intros t1 ev t2 i. apply (@order_snoc _ _ (decides i)
          (fun t1 => In (EvAcquire i) t1)); [eauto|discriminate].
      * intros i q pc Hn Hpc.
        apply nth_error_snoc in Hn. destruct Hn as [Hn|[-> Heq]].
        -- specialize (Hdec i q pc Hn Hpc).
           destruct (shouldProcess o q).
           ++ destruct Hdec as [env Hin]. exists env. apply in_or_app. auto.
           ++ apply in_or_app. auto.
        -- injection Heq as -> ->. discriminate.
      * intros i r calls Hin. apply in_app_or in Hin.
        destruct Hin as [Hin|[Heq|[]]]; [|discriminate].
        destruct (Hcalls i r calls Hin) as (q & qc & env & Hn & Hq).
        exists q, qc, env. split; [|assumption].
        rewrite nth_error_app1; [assumption|]. apply nth_error_Some. congruence.
      * intros i Hin. apply in_app_or in Hin.
        destruct Hin as [Hin|[Heq|[]]]; [|discriminate].
        destruct (Hskip i Hin) as (q & qc & Hn & Hq).
        exists q, qc. split; [|assumption].
        rewrite nth_error_app1; [assumption|]. apply nth_error_Some. congruence.
      * intros i q pc Hn Hpc. apply in_or_app.
        apply nth_error_snoc in Hn. destruct Hn as [Hn|[-> Heq]].
        -- left. eauto.
        -- injection Heq as -> ->. destruct Hpc; discriminate.
    + split; rewrite ?Hg, ?Ht; assumption.
    + destruct (report_fields o s) as (Hg & _ & _ & _ & _ & Ht & _).
      split; rewrite ?Hg, ?Ht; assumption.
  - apply stepGo_events in H.
    destruct H as (p & pc & pc' & ev & Hn & Hg & Ht & Hev & Hpc' & Hfirst
                   & Hacqs & Hdecs & Hpast & Hkinds & Hrel1 & Hrel2).
    assert (Hkeep : forall j q qc, nth_error (goroutines s) j = Some (q, qc) ->
              exists qc', nth_error (goroutines s') j = Some (q, qc')).
    { intros j q qc Hj. rewrite Hg, nth_error_updateAt.
      destruct (Nat.eqb_spec i j) as [<-|Hne]; [|eauto].
      rewrite Hn in *. injection Hj as <- <-. simpl. eauto. }
    assert (Hold : forall j q qc, nth_error (goroutines s') j = Some (q, qc) ->
              (j = i /\ q = p /\ qc = pc') \/
              (j <> i /\ nth_error (goroutines s) j = Some (q, qc))).
    { intros j q qc Hj. rewrite Hg, nth_error_updateAt in Hj.
      destruct (Nat.eqb_spec i j) as [<-|Hne].
      - rewrite Hn in Hj. simpl in Hj. injection Hj as <- <-. auto.
      - right. split; [congruence|assumption]. }
    split; rewrite ?Ht.
    + intros j q qc Hj. apply in_or_app. left.
      destruct (Hold j q qc Hj) as [(-> & -> & ->)|(_ & Hj')]; eauto.
    + intros j q qc Hj Hne. apply in_or_app.
      destruct (Hold j q qc Hj) as [(-> & -> & ->)|(_ & Hj')]; [|left; eauto].
      destruct pc; try (left; eapply Hacq; [exact Hn|discriminate]).
      right. rewrite Hfirst by reflexivity. now left.
    + intros j e Hin HQ. rewrite Hg, updateAt_length.
      apply in_app_or in Hin. destruct Hin as [Hin|Hin]; [eauto|].
      assert (j = i) as ->.
      { apply orb_true_iff in HQ. destruct HQ as [HQ|HQ].
        - eapply Hacqs; eauto.
        - eapply Hdecs; eauto. }
      apply nth_error_Some. congruence.
    + destruct Hev as [->|[e ->]]; [rewrite app_nil_r; assumption|].
      intros t1 ev t2 j. apply (@order_snoc _ _ (acquires j)
          (fun t1 => exists p, In (EvSpawn j p) t1)); [eauto|].
      intros HQ. assert (j = i) as -> by (eapply Hacqs; [now left|exact HQ]).
      eauto.
    + destruct Hev as [->|[e ->]]; [rewrite app_nil_r; assumption|].
      intros t1 ev t2 j. apply (@order_snoc _ _ (decides j)
          (fun t1 => In (EvAcquire j) t1)); [eauto|].
      intros HQ. destruct (Hdecs e j (or_introl eq_refl) HQ) as [-> ->].
      eapply Hacq; [exact Hn|discriminate].
    + intros j q qc Hj Hqc.
      destruct (Hold j q qc Hj) as [(-> & -> & ->)|(_ & Hj')].
      * destruct (Hpast Hqc) as [Hbefore|Hnow].
        -- specialize (Hdec i p pc Hn Hbefore).
           destruct (shouldProcess o p).
           ++ destruct Hdec as [env' Hin]. exists env'. apply in_or_app. auto.
           ++ apply in_or_app. auto.
        -- destruct (shouldProcess o p).
           ++ destruct Hnow as [env' ->]. exists env'. apply in_or_app.
              right. now left.
           ++ subst ev. apply in_or_app. right. now left.
      * specialize (Hdec j q qc Hj' Hqc).
        destruct (shouldProcess o q).
        -- destruct Hdec as [env' Hin]. exists env'. apply in_or_app. auto.
        -- apply in_or_app. auto.
    + intros j r calls Hin. apply in_app_or in Hin. destruct Hin as [Hin|Hin].
      * destruct (Hcalls j r calls Hin) as (q & qc & env' & Hj & Hq).
        destruct (Hkeep j q qc Hj) as [qc' Hj']. eauto.
      * destruct (Hkinds _ Hin) as (-> & Hsp' & env' & Hcf).
        destruct (Hkeep i p pc Hn) as [qc' Hj']. eauto 6.
    + intros j Hin. apply in_app_or in Hin. destruct Hin as [Hin|Hin].
      * destruct (Hskip j Hin) as (q & qc & Hj & Hq).
        destruct (Hkeep j q qc Hj) as [qc' Hj']. eauto.
      * destruct (Hkinds _ Hin) as (-> & Hsp').
        destruct (Hkeep i p pc Hn) as [qc' Hj']. eauto.
    + intros j q qc Hj Hqc. apply in_or_app.
      destruct (Hold j q qc Hj) as [(-> & -> & ->)|(_ & Hj')]; [|left; eauto].
      destruct Hqc as [Hqc|Hqc].
      * right. rewrite (Hrel1 Hqc). now left.
      * left. eapply Hrel; [exact Hn|]. left. auto.
Qed.

Lemma TraceInv_reachable s : reachable o t maxGoroutines s -> TraceInv o s.
Proof.
  intros [sched H].
  eapply (exec_invariant o maxGoroutines (TraceInv o));
    [apply TraceInv_step|apply TraceInv_initial|exact H].
Qed.

End TraceInvariant.

(** ** Every run comes to an end *)

Lemma weight_updateAt (gs : list (string * Pc)) : forall i p pc p' pc',
  nth_error gs i = Some (p, pc) ->
  list_sum (map (fun g => pcWeight (snd g)) (updateAt i (p', pc') gs)) + pcWeight pc
  = list_sum (map (fun g => pcWeight (snd g)) gs) + pcWeight pc'.
Proof.
  induction gs as [|g gs IH]; intros [|i] p pc p' pc' H; simpl in H; try discriminate.
  - injection H as ->. simpl. lia.
  - simpl. specialize (IH _ _ _ p' pc' H). lia.
Qed.

Lemma countIf_pos f gs :
  countIf f gs > 0 -> exists i p pc, nth_error gs i = Some (p, pc) /\ f pc = true.
Proof.
  induction gs as [|[p pc] gs IH]; intros H.
  - rewrite countIf_nil in H. lia.
  - rewrite countIf_cons in H. simpl in H. destruct (f pc) eqn:E.
    + exists 0, p, pc. auto.
    + destruct IH as (i & q & qc & Hn & Hf); [simpl in H; lia|].
      exists (S i), q, qc. auto.
Qed.

Section Termination.
Context {P : PathOps}.
Variable o : ConvertDirOpts.
Variable t : FsRoot.
Variable maxGoroutines : nat.

(** Each step uses up some of the work left. *)
Lemma step_weight c s s' :
  step o maxGoroutines c s = Some s' -> weight s' < weight s.
Proof.
  intros H. unfold weight. destruct c as [|i env]; simpl in H.
  - apply stepMain_inv in H.
    destruct H as [(m & rest & Hm & Hm' & Hg & _)
                  |[(e & rest & Hm & Hm' & Hg & _)
                  |[(p & rest & Hm & Hm' & Hg & _)
                  |[(Hm & _ & Hm' & Hg & _)
                  |(Hm & ->)]]]].
    + rewrite Hm, Hm', Hg. simpl. lia.
    + rewrite Hm, Hm', Hg. simpl. lia.
    + rewrite Hm, Hm', Hg, map_app, list_sum_app. simpl. lia.
    + rewrite Hm, Hm', Hg. simpl. lia.
    + destruct (report_fields o s) as (Hg & _ & _ & _ & _ & _ & r & Hr).
      rewrite Hm, Hr, Hg. simpl. lia.
  - apply stepGo_inv in H.
    destruct H as (p & pc & pc' & ev & Hn & Hm & _ & Hg & _ & Hcases).
    pose proof (weight_updateAt _ _ p pc' Hn) as Hw.
    rewrite Hm, Hg.
    destruct Hcases as
      [(-> & -> & _)
      |[(-> & _ & -> & _)
      |[(err & a & calls & -> & _ & _ & -> & _)
      |[(err & a & -> & -> & _)
      |[(a & -> & -> & _)
      |[(-> & -> & _)
      |(-> & -> & _)]]]]]];
      try destruct err; simpl in Hw; lia.
Qed.

(** With at least one slot in the pool, a run that has not returned can
    always take a step: nothing deadlocks. *)
Lemma progress s :
  1 <= maxGoroutines -> PoolInv maxGoroutines s -> returned s = None ->
  exists c s', step o maxGoroutines c s = Some s'.
Proof.
  intros HN [Hsem Hcap Hwg Hafter] Hret. unfold returned in Hret.
  destruct (main s) as [[|op rest]| |r] eqn:Hm; try discriminate.
  - destruct (Nat.eq_dec (wg s) 0) as [Hz|Hnz].
    + exists runMain. simpl. unfold stepMain. rewrite Hm, Hz. simpl. eauto.
    + destruct (Nat.eq_dec (sem s) 0) as [Hs0|Hs].
      * destruct (@countIf_pos live (goroutines s)) as (i & p & pc & Hn & Hl); [lia|].
        assert (Hh : holdsSlot pc = false).
        { apply (@countIf_zero holdsSlot (goroutines s)) with (g := (p, pc)).
          - unfold inFlight in Hsem. lia.
          - eapply nth_error_In; eauto. }
        exists (runGo i envOk). simpl. unfold stepGo. rewrite Hn.
        destruct pc; try discriminate.
        -- destruct (Nat.ltb_spec (sem s) maxGoroutines); [eauto|lia].
        -- destruct (wg s); [contradiction|eauto].
      * destruct (@countIf_pos holdsSlot (goroutines s)) as (i & p & pc & Hn & Hh).
        { unfold inFlight in Hsem. lia. }
        exists (runGo i envOk). simpl. unfold stepGo. rewrite Hn.
        destruct pc; try discriminate; eauto.
        -- destruct (shouldProcess o p); [|eauto].
           destruct (runConvertFile (fileOpts o p) envOk) as [[err a] calls]. eauto.
        -- destruct (sem s); [contradiction|eauto].
  - exists runMain. simpl. unfold stepMain. rewrite Hm. destruct op; eauto.
  - exists runMain. simpl. unfold stepMain. rewrite Hm. eauto.
Qed.

(** So every reachable state leads to a state in which ConvertDir has
    returned. *)
Lemma runs_to_return :
  1 <= maxGoroutines ->
  forall n s, weight s <= n -> PoolInv maxGoroutines s ->
  exists sched s', exec o maxGoroutines sched s = Some s' /\ returned s' <> None.
Proof.
  intros HN. induction n as [|n IH]; intros s Hw Hinv.
  - destruct (returned s) eqn:Hret.
    + exists [], s. simpl. split; congruence.
    + destruct (progress HN Hinv Hret) as (c & s1 & Hc).
      apply step_weight in Hc. lia.
  - destruct (returned s) eqn:Hret.
    + exists [], s. simpl. split; congruence.
    + destruct (progress HN Hinv Hret) as (c & s1 & Hc).
      destruct (IH s1) as (sched & s' & He & Hr).
      * apply step_weight in Hc. lia.
      * eapply PoolInv_step; eauto.
      * exists (c :: sched), s'. simpl. rewrite Hc. auto.
Qed.

Lemma ConvertDir_returns :
  1 <= maxGoroutines ->
  forall s, reachable o t maxGoroutines s ->
  exists sched s', exec o maxGoroutines sched s = Some s' /\ returned s' <> None.
Proof.
  intros HN s Hr. apply (runs_to_return HN (n := weight s)); [lia|].
  eapply PoolInv_reachable; eauto.
Qed.

End Termination.

(** ** The report *)

Lemma logErrors_lines errs : forall i m,
  In m (logErrors i errs) -> exists k e, m = LogError k e.
Proof.
  induction errs as [|x l IH]; simpl; intros i m H; [contradiction|].
  destruct H as [<-|H]; eauto.
Qed.

Section ReportInvariant.
Context {P : PathOps}.
Variable o : ConvertDirOpts.
Variable t : FsRoot.
Variable maxGoroutines : nat.

(** Once Wait has returned no goroutine can move any more. *)
Lemma stepGo_running i env s s' :
  PoolInv maxGoroutines s ->
  stepGo o maxGoroutines i env s = Some s' ->
  exists ops, main s = mRun ops.
Proof.
  intros [_ _ Hwg Hafter] H. apply stepGo_inv in H.
  destruct H as (p & pc & pc' & ev & Hn & _ & _ & _ & _ & Hcases).
  destruct (main s) as [ops| |r]; [eauto| |];
    pose proof (countIf_updateAt live _ _ p pcExit Hn) as Hx;
    destruct Hcases as
      [(-> & _)|[(-> & _)|[(err & a & calls & -> & _)
      |[(err & a & -> & _)|[(a & -> & _)|[(-> & _)|(-> & _)]]]]]];
    simpl in Hx; lia.
Qed.


Lemma LogInv_initial : LogInv o maxGoroutines (initial o t maxGoroutines).
Proof.
  unfold LogInv. simpl. apply mainOps_opLogs.
Qed.

Lemma LogInv_step c s s' :
  PoolInv maxGoroutines s -> LogInv o maxGoroutines s ->
  step o maxGoroutines c s = Some s' -> LogInv o maxGoroutines s'.
Proof.
  intros Hpool Hlog H. unfold LogInv in *.
  destruct c as [|i env]; simpl in H.
  - apply stepMain_inv in H.
    destruct H as [(m & rest & Hm & Hm' & _ & _ & _ & _ & _ & Hl & _)
                  |[(e & rest & Hm & Hm' & _ & _ & _ & _ & _ & Hl & _)
                  |[(p & rest & Hm & Hm' & _ & _ & _ & _ & _ & Hl & _)
                  |[(Hm & _ & Hm' & _ & _ & _ & _ & _ & Hl & _)
                  |(Hm & ->)]]]];
      rewrite Hm in Hlog; rewrite ?Hm', ?Hl; simpl in Hlog.
    + now rewrite <- app_assoc.
    + assumption.
    + assumption.
    + now rewrite app_nil_r in Hlog.
    + unfold report, finalResult, finalLogs.
      destruct (0 <? length (collectedErrors s))%nat eqn:E; simpl; rewrite E;
        now rewrite Hlog.
  - destruct (stepGo_running _ _ Hpool H) as [ops Hops].
    apply stepGo_inv in H.
    destruct H as (p & pc & pc' & ev & _ & Hm & Hl & _).
    rewrite Hm, Hl. now rewrite Hops in *.
Qed.

Lemma LogInv_reachable s : reachable o t maxGoroutines s -> LogInv o maxGoroutines s.
Proof.
  intros [sched H].
  assert (Hboth : PoolInv maxGoroutines s /\ LogInv o maxGoroutines s); [|tauto].
  eapply (exec_invariant o maxGoroutines
            (fun s => PoolInv maxGoroutines s /\ LogInv o maxGoroutines s)); [| |exact H].
  - intros c s0 s1 [Hp Hl] Hc. split.
    + eapply PoolInv_step; eauto.
    + eapply LogInv_step; eauto.
  - split; [apply PoolInv_initial|apply LogInv_initial].
Qed.

(** When ConvertDir has returned: every goroutine has finished, there is
    one goroutine per regular file, the channel is empty. *)
Lemma returned_state s r :
  reachable o t maxGoroutines s -> returned s = Some r ->
  (forall g, In g (goroutines s) -> snd g = pcExit) /\
  map fst (goroutines s) = regularFiles (Dir o) t /\
  sem s = 0 /\
  r = finalResult s /\
  logged s = preamble o maxGoroutines ++ finalLogs o s.
Proof.
  intros Hr Hret.
  pose proof (PoolInv_reachable Hr) as [Hsem Hcap Hwg Hafter].
  pose proof (RunInv_reachable Hr) as [Hspawn _ _ _ _].
  pose proof (LogInv_reachable Hr) as Hlog.
  unfold returned, LogInv in *.
  destruct (main s) as [ | |r'] eqn:Hm; try discriminate.
  injection Hret as ->. simpl in Hspawn. rewrite app_nil_r in Hspawn.
  assert (Hall : forall g, In g (goroutines s) -> snd g = pcExit).
  { intros g Hg.
    assert (Hz : countIf live (goroutines s) = 0) by lia.
    pose proof (countIf_zero _ _ Hz g Hg) as Hl.
    unfold live in Hl. destruct (snd g); simpl in Hl; try discriminate. reflexivity. }
  repeat split; try tauto.
  rewrite Hsem. unfold inFlight. apply countIf_all.
  intros g Hg. rewrite (Hall g Hg). reflexivity.
Qed.

(** The four counters of a finished run add up to the number of regular
    files when the eligibility test passes, and to zero when it does not:
    the files left alone are not counted. *)
Lemma counters_sum s r :
  reachable o t maxGoroutines s -> returned s = Some r ->
  total (stats s) =
  if shouldProcess o (Dir o)
  then Z.of_nat (length (regularFiles (Dir o) t))
  else 0%Z.
Proof.
  intros Hr Hret.
  destruct (returned_state Hr Hret) as (Hall & Hfiles & _).
  pose proof (RunInv_reachable Hr) as [_ _ _ Htotal _].
  rewrite (Htotal (Dir o)). destruct (shouldProcess o (Dir o)); [|reflexivity].
  f_equal. rewrite <- Hfiles, length_map.
  unfold countIf. clear Hfiles Htotal.
  induction (goroutines s) as [|g gs IH]; [reflexivity|].
  simpl. rewrite (Hall g (or_introl eq_refl)). simpl. f_equal.
  apply IH. intros g' Hg'. apply Hall. now right.
Qed.

(** ConvertDir returns an error exactly when the error slice is not empty,
    and a counted failure always has its error there. *)
Lemma result_error_iff s r :
  reachable o t maxGoroutines s -> returned s = Some r ->
  (r <> None <-> collectedErrors s <> []) /\
  ((0 < failedFiles (stats s))%Z -> r <> None).
Proof.
  intros Hr Hret.
  destruct (returned_state Hr Hret) as (_ & _ & _ & -> & _).
  pose proof (RunInv_reachable Hr) as [_ _ _ _ [Hf0 Hf]].
  unfold finalResult.
  destruct (collectedErrors s) as [|e errs]; simpl in *.
  - split; [split; congruence|lia].
  - split; [split; congruence|congruence].
Qed.

(** A run that returns an error logs the errors and not the summary. *)
Lemma error_run_has_no_summary s e :
  reachable o t maxGoroutines s -> returned s = Some (Some e) ->
  ~ In LogSummaryHeader (logged s).
Proof.
  intros Hr Hret.
  destruct (returned_state Hr Hret) as (_ & _ & _ & Hres & ->).
  unfold finalResult, finalLogs, preamble in *.
  destruct (0 <? length (collectedErrors s))%nat; [|discriminate].
  intros Hin. apply in_app_or in Hin. destruct Hin as [Hin|[Hin|Hin]].
  - destruct (Quiet o); simpl in Hin; intuition discriminate.
  - discriminate.
  - apply logErrors_lines in Hin. destruct Hin as (k & x & H). discriminate.
Qed.

(** The line "files failed" of the summary can only show zero: a run with
    a counted failure has an error and returns before the summary. *)
Lemma summary_shows_no_failure s n :
  reachable o t maxGoroutines s -> In (LogFailed n) (logged s) -> n = 0%Z.
Proof.
  intros Hr Hin.
  pose proof (LogInv_reachable Hr) as Hlog.
  pose proof (RunInv_reachable Hr) as [_ _ _ _ [Hf0 Hf]].
  assert (Hpre : ~ In (LogFailed n) (preamble o maxGoroutines)).
  { unfold preamble. destruct (Quiet o); simpl; intuition discriminate. }
  unfold LogInv in Hlog. destruct (main s) as [ops| |r].
  - exfalso. apply Hpre. rewrite <- Hlog. apply in_or_app. auto.
  - exfalso. apply Hpre. now rewrite <- Hlog.
  - destruct Hlog as [_ Hl]. rewrite Hl in Hin.
    apply in_app_or in Hin. destruct Hin as [Hin|Hin]; [contradiction|].
    unfold finalLogs in Hin.
    destruct (collectedErrors s) as [|e errs]; simpl in *.
    + destruct (Quiet o); simpl in Hin; [contradiction|].
      destruct Hin as [H|[H|[H|[H|[H|[H|[]]]]]]]; try discriminate.
      injection H as <-. lia.
    + destruct Hin as [H|[H|Hin]]; try discriminate.
      apply logErrors_lines in Hin. destruct Hin as (k & x & H). discriminate.
Qed.

End ReportInvariant.

(* ================================================================== *)
(** * The engine of ConvertDir *)

Section Engine.
Context {P : PathOps}.

(** C9.  In every state ConvertDir can reach with a pool of capacity
    [maxGoroutines], the goroutines between their send on [sem] and their
    receive from it are as many as the elements in the channel and at most
    [maxGoroutines]; and when ConvertDir has returned the channel is empty
    and every goroutine that acquired a slot has released it, whatever
    ConvertFile answered (the release is deferred, an error does not skip
    it).  A goroutine that holds a slot is never blocked: whatever the
    outside world answers, it can take its next step towards the release. *)
Theorem worker_pool_bound (o : ConvertDirOpts) (t : FsRoot) (maxGoroutines : nat)
    (s : State) :
  reachable o t maxGoroutines s ->
  inFlight s <= maxGoroutines /\
  sem s = inFlight s /\
  (forall i p pc env,
     nth_error (goroutines s) i = Some (p, pc) -> holdsSlot pc = true ->
     exists s', stepGo o maxGoroutines i env s = Some s') /\
  (returned s <> None ->
     sem s = 0 /\
     forall i, In (EvAcquire i) (trace s) -> In (EvRelease i) (trace s)).
Proof.
  intros Hr.
  pose proof (PoolInv_reachable Hr) as [Hsem Hcap _ _].
  split; [lia|]. split; [assumption|]. split.
  { intros i p pc env Hn Hh. unfold stepGo. rewrite Hn.
    destruct pc; try discriminate; eauto.
    - destruct (shouldProcess o p); [|eauto].
      destruct (runConvertFile (fileOpts o p) env) as [[err a] calls]. eauto.
    - pose proof (countIf_updateAt holdsSlot _ _ p pcExit Hn) as Hx.
      unfold inFlight in Hsem. simpl in Hx.
      destruct (sem s); [lia|eauto]. }
  intros Hret. destruct (returned s) as [r|] eqn:Hs; [|contradiction].
  destruct (returned_state Hr Hs) as (Hall & _ & Hz & _).
  split; [assumption|].
  intros i Hin.
  pose proof (TraceInv_reachable Hr) as Htr.
  assert (Hlt : i < length (goroutines s)).
  { apply (tr_exists Htr i (EvAcquire i) Hin). simpl. now rewrite Nat.eqb_refl. }
  destruct (nth_error (goroutines s) i) as [[p pc]|] eqn:Hn.
  - apply (tr_released Htr i Hn). right.
    apply (Hall (p, pc)). eapply nth_error_In; eauto.
  - apply nth_error_None in Hn. lia.
Qed.

(** C8.  With at least one slot in the pool ConvertDir always returns, from
    any state it has reached.  WalkDir itself returns nil, whatever could
    not be read.  And when ConvertDir has returned: every entry whose access
    failed has its error, tagged with the path of the entry, in the error
    slice, and the run is reported as failed; every regular file of the
    tree, wherever it stands with respect to the unreadable entries, had its
    goroutine, which called ConvertFile on it when the eligibility test
    passed. *)
Theorem traversal_errors_do_not_stop_the_walk
    (o : ConvertDirOpts) (t : FsRoot) (maxGoroutines : nat) :
  1 <= maxGoroutines ->
  (forall s, reachable o t maxGoroutines s ->
     exists sched s',
       exec o maxGoroutines sched s = Some s' /\ returned s' <> None) /\
  fst (WalkDir walkFn (Dir o) t []) = None /\
  forall s r, reachable o t maxGoroutines s -> returned s = Some r ->
    (forall p e, In (p, e) (accessFailures (Dir o) t) ->
       In (errAccessing p e) (collectedErrors s) /\
       errorPath (errAccessing p e) = Some p /\
       r <> None) /\
    map fst (goroutines s) = regularFiles (Dir o) t /\
    (forall i p, nth_error (regularFiles (Dir o) t) i = Some p ->
       In (EvSpawn i p) (trace s) /\
       if shouldProcess o p
       then exists env,
              In (EvConvertFile i (fst (runConvertFile (fileOpts o p) env))
                                  (snd (runConvertFile (fileOpts o p) env)))
                 (trace s)
       else In (EvNotProcessed i) (trace s)).
Proof.
  intros HN. split; [|split].
  - intros s Hr. eapply ConvertDir_returns; eauto.
  - destruct (WalkDir_walkFn (Dir o) t) as (ops & -> & _). reflexivity.
  - intros s r Hr Hret.
    destruct (returned_state Hr Hret) as (Hall & Hfiles & _ & Hres & _).
    pose proof (RunInv_reachable Hr) as Hrun.
    pose proof (TraceInv_reachable Hr) as Htr.
    split; [|split; [assumption|]].
    + intros p e Hin.
      assert (Hrec : In (errAccessing p e) (collectedErrors s)).
      { destruct (run_errors Hrun (errAccessing p e)) as [H|H].
        - change (errAccessing p e) with (asError (p, e)). now apply in_map.
        - assumption.
        - unfold returned in Hret. destruct (main s); try discriminate.
          destruct H. }
      split; [assumption|]. split; [reflexivity|].
      rewrite Hres. unfold finalResult.
      destruct (collectedErrors s); [destruct Hrec|discriminate].
    + intros i p Hn. rewrite <- Hfiles in Hn.
      rewrite nth_error_map in Hn.
      destruct (nth_error (goroutines s) i) as [[q pc]|] eqn:Hg; [|discriminate].
      simpl in Hn. injection Hn as ->.
      split; [eapply tr_spawned; eauto|].
      apply (tr_decided Htr i Hg).
      assert (Hx : snd (p, pc) = pcExit)
        by (apply Hall; eapply nth_error_In; eauto).
      simpl in Hx. now subst pc.
Qed.

(** C10.  The eligibility test of a goroutine compares the target
    extension of the options with Sources and Except: its value is the same
    for any two files, and in a run either every goroutine that has taken
    its decision called ConvertFile or none did. *)
Theorem eligibility_ignores_the_file (o : ConvertDirOpts) :
  (forall p1 p2, shouldProcess o p1 = shouldProcess o p2) /\
  (forall p, shouldProcess o p =
             Contains (Sources o) (TargetExtension o)
             || negb (Contains (Except o) (TargetExtension o))) /\
  (forall t maxGoroutines s, reachable o t maxGoroutines s ->
     forall i j ei ej,
       In ei (trace s) -> In ej (trace s) ->
       decides i ei = true -> decides j ej = true ->
       (ei = EvNotProcessed i <-> ej = EvNotProcessed j)).
Proof.
  split; [reflexivity|]. split.
  - intros p. unfold shouldProcess.
    destruct (Contains (Sources o) (TargetExtension o)); [reflexivity|].
    now destruct (Contains (Except o) (TargetExtension o)).
  - intros t n s Hr i j ei ej Hi Hj Hdi Hdj.
    pose proof (TraceInv_reachable Hr) as Htr.
    destruct ei as [| |i'|i' ri ci| | |]; try discriminate;
      destruct ej as [| |j'|j' rj cj| | |]; try discriminate;
      simpl in Hdi, Hdj; apply Nat.eqb_eq in Hdi, Hdj; subst i' j'.
    + tauto.
    + destruct (tr_skipped Htr _ Hi) as (p & pc & _ & Hp).
      destruct (tr_calls Htr _ _ _ Hj) as (q & qc & env & _ & Hq & _).
      rewrite (shouldProcess_indep o p q) in Hp. congruence.
    + destruct (tr_skipped Htr _ Hj) as (p & pc & _ & Hp).
      destruct (tr_calls Htr _ _ _ Hi) as (q & qc & env & _ & Hq & _).
      rewrite (shouldProcess_indep o p q) in Hp. congruence.
    + split; discriminate.
Qed.


End Engine.

(* ================================================================== *)
(** * Concrete runs (slash-separated paths) *)

(** The path helpers on a few paths. *)
Example Ext_last_dot : Ext "music/a.b/song.opus" = ".opus".
Proof. reflexivity. Qed.

Example Ext_stops_at_separator : Ext "music/a.b/song" = EmptyString.
Proof. reflexivity. Qed.

Example Base_last_element : Base "music/a.b/song.opus" = "song.opus".
Proof. reflexivity. Qed.

Example TrimSuffix_extension : TrimSuffix "song.opus" ".opus" = "song".
Proof. reflexivity. Qed.

Example Join_cleans : Join "/a//b/../c/./" "b.mp3" = "/a/c/b.mp3".
Proof. reflexivity. Qed.

Example Join_dot : Join "." "b.mp3" = "b.mp3".
Proof. reflexivity. Qed.

Example Join_keeps_leading_dotdot : Join "../../x/.." "b.mp3" = "../../b.mp3".
Proof. reflexivity. Qed.

(** The worked examples of ConvertFile. *)
Example relocate_copies :
  runConvertFile toRelocate envOk =
  ((None, fileActionMove),
   [CallLog (LogCopying "music/b.mp3" "out/b.mp3");
    CallCopyFile "music/b.mp3" "out/b.mp3";
    CallLog (LogMovedCopied "music/b.mp3" "out/b.mp3")]).
Proof. reflexivity. Qed.

Example convert_runs_the_command :
  runConvertFile toConvert envOk =
  ((None, fileActionConvert),
   [CallLog (LogConverting "music/a.wav" "out/a.mp3");
    CallGenerate template "music/a.wav" "out/a.mp3";
    CallRun "ffmpeg -y -i music/a.wav out/a.mp3" false;
    CallLog (LogConvertedFile "music/a.wav" "out/a.mp3")]).
Proof. reflexivity. Qed.

(** copyFile refuses a directory: the relocation fails with the error
    tagged with the path. *)
Example relocate_refuses_directory :
  fst (runConvertFile toRelocate envDirectory) =
  (Some (errCopy "music/b.mp3" (errNotRegular "music/b.mp3")), fileActionFail).
Proof. reflexivity. Qed.

(** With one slot, a second goroutine cannot acquire while the first holds
    it: the send on the full channel blocks. *)
Example second_acquire_blocks :
  exec optsPlain 1 (repeat runMain 4 ++ [runGo 0 envOk; runGo 1 envOk])
       (initial optsPlain treeTwo 1) = None.
Proof. reflexivity. Qed.

(** [wg.Wait()] blocks while a goroutine has not called Done. *)
Example wait_blocks :
  exec optsPlain 1 (repeat runMain 4) (initial optsPlain treeWav 1) = None.
Proof. reflexivity. Qed.

(** out/b.mp3 with output directory out: already in place. *)
Lemma ConvertFile_in_place_skips_witness :
  Ext (cfPath inPlace) = cfTargetExtension inPlace /\
  cfPath inPlace = outputPathOf inPlace /\
  fst (runConvertFile inPlace envFail) = (None, fileActionSkip) /\
  filter mutates (snd (runConvertFile inPlace envFail)) = [].
Proof.
  assert (H1 : Ext (cfPath inPlace) = cfTargetExtension inPlace) by reflexivity.
  assert (H2 : cfPath inPlace = outputPathOf inPlace) by reflexivity.
  destruct (ConvertFile_in_place_skips inPlace envFail H1 H2) as (A & _ & _ & D).
  auto.
Defined.

(** music/b.mp3 is copied to out/b.mp3; music/a.wav is converted. *)
Lemma ConvertFile_decision_witness :
  (Ext (cfPath toRelocate) = cfTargetExtension toRelocate /\
   cfPath toRelocate <> outputPathOf toRelocate /\
   filter is_action (snd (runConvertFile toRelocate envOk)) =
     [CallCopyFile "music/b.mp3" "out/b.mp3"]) /\
  (Ext (cfPath toConvert) <> cfTargetExtension toConvert /\
   filter relocates (snd (runConvertFile toConvert envOk)) = []).
Proof.
  assert (H1 : Ext (cfPath toRelocate) = cfTargetExtension toRelocate) by reflexivity.
  assert (H2 : cfPath toRelocate <> outputPathOf toRelocate)
    by (vm_compute; discriminate).
  assert (H3 : Ext (cfPath toConvert) <> cfTargetExtension toConvert)
    by (vm_compute; discriminate).
  destruct (ConvertFile_decision toRelocate envOk) as [Hrel _].
  destruct (Hrel H1) as (_ & _ & Hmv). destruct (Hmv H2) as (Hcalls & _).
  destruct (ConvertFile_decision toConvert envOk) as [_ Hconv].
  destruct (Hconv H3) as (Hnone & _).
  repeat split; assumption.
Defined.

(** One file, one slot, the external command fails: the slot is released. *)
Lemma worker_pool_bound_witness :
  exists s,
    exec optsPlain 1 (schedOne 6 envFail) (initial optsPlain treeWav 1) = Some s /\
    inFlight s <= 1 /\
    sem s = 0 /\
    In (EvRelease 0) (trace s).
Proof.
  assert (Hrun : exists s,
            exec optsPlain 1 (schedOne 6 envFail) (initial optsPlain treeWav 1)
              = Some s /\
            returned s <> None /\ In (EvAcquire 0) (trace s)).
  { eexists. split; [vm_compute; reflexivity|].
    split; [discriminate|simpl; tauto]. }
  destruct Hrun as (s & He & Hret & Ha).
  exists s. split; [exact He|].
  destruct (worker_pool_bound (o := optsPlain) (t := treeWav) (ex_intro _ _ He))
    as (Hb & _ & _ & Hrel).
  destruct (Hrel Hret) as (Hz & Hall).
  split; [exact Hb|]. split; [exact Hz|]. exact (Hall 0 Ha).
Defined.

(** music/locked cannot be read: the error is recorded and music/z.wav,
    which comes after it, is processed. *)
Lemma traversal_errors_witness :
  exists s,
    exec optsPlain 1 schedLocked (initial optsPlain treeLocked 1) = Some s /\
    returned s = Some (Some (errCompleted 1)) /\
    In ("music/locked", denied) (accessFailures "music" treeLocked) /\
    nth_error (regularFiles "music" treeLocked) 0 = Some "music/z.wav" /\
    In (errAccessing "music/locked" denied) (collectedErrors s) /\
    In (EvSpawn 0 "music/z.wav") (trace s).
Proof.
  eexists. split; [vm_compute; reflexivity|].
  split; [reflexivity|].
  assert (Hf : In ("music/locked", denied) (accessFailures (Dir optsPlain) treeLocked))
    by (vm_compute; auto).
  assert (Hz : nth_error (regularFiles (Dir optsPlain) treeLocked) 0 = Some "music/z.wav")
    by reflexivity.
  split; [exact Hf|]. split; [exact Hz|].
  destruct (traversal_errors_do_not_stop_the_walk optsPlain treeLocked (le_n 1))
    as (_ & _ & H).
  match goal with
  | |- In _ (collectedErrors ?s) /\ _ =>
      destruct (H s (Some (errCompleted 1))
                  (ex_intro _ schedLocked eq_refl) eq_refl) as (He & _ & Hp)
  end.
  split.
  - exact (proj1 (He _ _ Hf)).
  - exact (proj1 (Hp 0 _ Hz)).
Defined.

(** Two files with different extensions, the same decision. *)
Lemma eligibility_ignores_the_file_witness :
  shouldProcess optsExceptTarget "music/note.txt"
  = shouldProcess optsExceptTarget "music/song.opus" /\
  exists s,
    exec optsExceptTarget 1 schedTwo (initial optsExceptTarget treeTwo 1) = Some s /\
    In (EvNotProcessed 0) (trace s) /\ In (EvNotProcessed 1) (trace s) /\
    (EvNotProcessed 0 = EvNotProcessed 0 <-> EvNotProcessed 1 = EvNotProcessed 1).
Proof.
  destruct (eligibility_ignores_the_file optsExceptTarget) as (H1 & _ & H3).
  split; [apply H1|].
  eexists. split; [vm_compute; reflexivity|].
  match goal with
  | |- In _ (trace ?s) /\ _ =>
      assert (Ha : In (EvNotProcessed 0) (trace s)) by (simpl; tauto);
      assert (Hb : In (EvNotProcessed 1) (trace s)) by (simpl; tauto);
      pose proof (H3 treeTwo 1 s (ex_intro _ schedTwo eq_refl) 0 1
                     (EvNotProcessed 0) (EvNotProcessed 1) Ha Hb eq_refl eq_refl)
        as Hiff
  end.
  auto.
Defined.



(* ================================================================== *)
(** * Where ConvertDir departs from the filters it is given *)

(** The test of main.go lets through every file whose extension is among
    the source extensions, and stops every exempted file when no source
    extension is given. *)
Lemma matchesSourceCriteria_allow sources except ext :
  Contains sources ext = true -> matchesSourceCriteria sources except ext = true.
Proof.
  unfold matchesSourceCriteria. intros H.
  destruct sources; [discriminate|]. exact H.
Qed.

Lemma matchesSourceCriteria_deny except ext :
  Contains except ext = true -> matchesSourceCriteria [] except ext = false.
Proof.
  unfold matchesSourceCriteria. simpl. now intros ->.
Qed.

(** When it is eligible at all, ConvertDir is so whatever the file is. *)
Lemma shouldProcess_iff o p :
  shouldProcess o p = false <->
  Contains (Sources o) (TargetExtension o) = false /\
  Contains (Except o) (TargetExtension o) = true.
Proof.
  unfold shouldProcess.
  destruct (Contains (Sources o) (TargetExtension o));
    destruct (Contains (Except o) (TargetExtension o)); simpl;
    intuition discriminate.
Qed.

(** C1 at [--sources .opus --except .mp3 --target .mp3] on music/song.opus:
    the extension of the file is in Sources (and the test of main.go
    accepts it), yet the eligibility test of ConvertDir fails, because it
    looks for the target extension in the lists; the run ends without a
    call to ConvertFile and with every counter at zero. *)
Theorem allow_listed_file_is_not_processed :
  Contains (Sources optsAllow) (Ext "music/song.opus") = true /\
  matchesSourceCriteria (Sources optsAllow) (Except optsAllow)
                        (Ext "music/song.opus") = true /\
  shouldProcess optsAllow "music/song.opus" = false /\
  exists s,
    exec optsAllow 1 (schedOne 4 envOk) (initial optsAllow treeSong 1) = Some s /\
    returned s = Some None /\
    trace s = [EvSpawn 0 "music/song.opus"; EvAcquire 0; EvNotProcessed 0;
               EvRelease 0; EvDone 0] /\
    total (stats s) = 0%Z.
Proof.
  repeat (split; [reflexivity|]).
  eexists. split; [vm_compute; reflexivity|]. repeat split.
Qed.

(** C2 at [--except .txt --target .mp3], no source extension, on
    music/note.txt: the extension of the file is in Except (and the test of
    main.go rejects it), yet the eligibility test of ConvertDir passes and
    ConvertFile runs the external command on the file. *)
Theorem deny_listed_file_is_converted :
  Sources optsDeny = [] /\
  Contains (Except optsDeny) (Ext "music/note.txt") = true /\
  matchesSourceCriteria (Sources optsDeny) (Except optsDeny)
                        (Ext "music/note.txt") = false /\
  shouldProcess optsDeny "music/note.txt" = true /\
  exists s calls,
    exec optsDeny 1 (schedOne 5 envOk) (initial optsDeny treeNote 1) = Some s /\
    returned s = Some None /\
    trace s = [EvSpawn 0 "music/note.txt"; EvAcquire 0;
               EvConvertFile 0 (None, fileActionConvert) calls;
               EvStat 0 fileActionConvert; EvRelease 0; EvDone 0] /\
    filter mutates calls = [CallRun "ffmpeg -y -i music/note.txt out/note.mp3" false] /\
    processedFiles (stats s) = 1%Z /\
    skippedFiles (stats s) = 0%Z.
Proof.
  repeat (split; [reflexivity|]).
  eexists. eexists. split; [vm_compute; reflexivity|]. repeat split.
Qed.

(** C3 at [--except .mp3 --target .mp3] on a directory with the one file
    music/a.wav: the walk visits one regular file, the eligibility test
    fails, and the goroutine ends without touching a counter; the run
    returns nil and its summary reports zero files skipped and zero files
    in total. *)
Theorem uneligible_files_are_not_counted :
  regularFiles (Dir optsExceptTarget) treeWav = ["music/a.wav"] /\
  exists s,
    exec optsExceptTarget 1 (schedOne 4 envOk) (initial optsExceptTarget treeWav 1)
      = Some s /\
    returned s = Some None /\
    stats s = {| processedFiles := 0; skippedFiles := 0;
                 movedFiles := 0; failedFiles := 0 |} /\
    total (stats s) = 0%Z /\
    logged s = [LogWorkers 1; LogWaiting; LogSummaryHeader; LogConverted 0;
                LogMoved 0; LogSkipped 0; LogFailed 0; LogTotal 0].
Proof.
  split; [reflexivity|].
  eexists. split; [vm_compute; reflexivity|]. repeat split.
Qed.

(** C7 at options without filter, not quiet, on a directory with the one
    file music/a.wav, the external command failing: ConvertDir returns the
    error "completed with 1 errors" and one failure is counted, but the
    return comes before the summary is logged: the log has the error and no
    line of the summary. *)
Theorem failed_run_logs_no_summary :
  exists s,
    exec optsPlain 1 (schedOne 6 envFail) (initial optsPlain treeWav 1) = Some s /\
    returned s = Some (Some (errCompleted 1)) /\
    failedFiles (stats s) = 1%Z /\
    collectedErrors s = [errConvert "music/a.wav" exitStatus1] /\
    logged s = [LogWorkers 1; LogWaiting; LogErrorsHeader;
                LogError 1 (errConvert "music/a.wav" exitStatus1)] /\
    ~ In LogSummaryHeader (logged s) /\
    forall n, ~ In (LogFailed n) (logged s).
Proof.
  eexists. split; [vm_compute; reflexivity|].
  repeat (split; [reflexivity|]).
  split; simpl; intuition discriminate.
Qed.

(** A run on an empty directory returns nil and logs the summary. *)
Example empty_directory_succeeds :
  exists s,
    exec optsPlain 1 (repeat runMain 4)
         (initial optsPlain (LstatOk (IsDir FNil None)) 1) = Some s /\
    returned s = Some None /\
    In LogSummaryHeader (logged s).
Proof.
  eexists. split; [vm_compute; reflexivity|]. split; [reflexivity|]. simpl. tauto.
Qed.

(* ================================================================== *)
(** * What ConvertFile does to the files *)

Section ConvertFileSafety.
Context {P : PathOps}.

Ltac file_cases o env :=
  unfold runConvertFile, ConvertFile, bind, ret, logUnlessQuiet, logPrintf,
    Rename, CopyFile, Generate, Run, Remove, call;
  destruct (String.eqb (Ext (cfPath o)) (cfTargetExtension o)) eqn:Hext;
  [ destruct (String.eqb (cfPath o) (outputPathOf o)) eqn:Hsame;
    [ | destruct (cfDeleteOriginal o) eqn:Hdel;
        [ destruct (os_Rename env (cfPath o) (outputPathOf o)) eqn:Hren
        | destruct (copyFile env (cfPath o) (outputPathOf o)) eqn:Hcp ] ]
  | destruct (generateConvertCommand env (cfCommand o) (cfPath o) (outputPathOf o))
      as [command|gerr] eqn:Hgen;
    [ destruct (runCommand env command (cfQuiet o)) eqn:Hrun;
      [ | destruct (cfDeleteOriginal o) eqn:Hdel;
          [ destruct (os_Remove env (cfPath o)) eqn:Hrm | ] ]
    | ] ];
  destruct (cfQuiet o) eqn:Hq; simpl.

Ltac in_list H :=
  simpl in H;
  repeat match type of H with _ \/ _ => destruct H as [H|H] end;
  try contradiction; try discriminate.

(** Shared by the statements about one call and about a whole run. *)
Lemma ConvertFile_no_destroy o env :
  cfDeleteOriginal o = false ->
  filter destroys (snd (runConvertFile o env)) = [].
Proof.
  intros Hd. file_cases o env; try reflexivity; congruence.
Qed.

Lemma ConvertFile_calls_aim o env c :
  In c (snd (runConvertFile o env)) ->
  match c with
  | CallRename src dst | CallCopyFile src dst =>
      src = cfPath o /\ dst = outputPathOf o
  | CallGenerate tmpl input output =>
      tmpl = cfCommand o /\ input = cfPath o /\ output = outputPathOf o
  | CallRun _ quiet => quiet = cfQuiet o
  | CallRemove path => path = cfPath o
  | CallLog _ => True
  end.
Proof.
  file_cases o env; intros Hin; simpl in Hin;
    repeat (destruct Hin as [<-|Hin]; [simpl; auto|]); contradiction.
Qed.

(** X1.  Every error ConvertFile returns is tagged with the path of the
    file it was called on, and comes with fileActionFail; without an error
    the action is never fileActionFail. *)
Theorem ConvertFile_errors_carry_the_path (o : ConvertFileOpts) (env : Env) :
  (forall e, fst (fst (runConvertFile o env)) = Some e ->
     errorPath e = Some (cfPath o) /\
     snd (fst (runConvertFile o env)) = fileActionFail) /\
  (fst (fst (runConvertFile o env)) = None ->
     snd (fst (runConvertFile o env)) <> fileActionFail).
Proof.
  file_cases o env; split; intros; try discriminate;
    match goal with
    | H : Some _ = Some _ |- _ => injection H as <-; auto
    end.
Qed.

(** X2.  Without DeleteOriginal the file stays where it is: ConvertFile
    neither renames nor removes anything. *)
Theorem ConvertFile_keeps_the_original (o : ConvertFileOpts) (env : Env) :
  cfDeleteOriginal o = false ->
  filter destroys (snd (runConvertFile o env)) = [].
Proof.
  apply ConvertFile_no_destroy.
Qed.

(** X3.  The original is removed only after a conversion that succeeded:
    ConvertFile calls os.Remove exactly when DeleteOriginal is set, the
    file has not the target extension, the command could be built and its
    run returned no error; the path removed is the path of the file. *)
Theorem ConvertFile_removes_after_success (o : ConvertFileOpts) (env : Env) :
  (forall p, In (CallRemove p) (snd (runConvertFile o env)) -> p = cfPath o) /\
  ((exists p, In (CallRemove p) (snd (runConvertFile o env))) <->
   cfDeleteOriginal o = true /\
   Ext (cfPath o) <> cfTargetExtension o /\
   exists command,
     generateConvertCommand env (cfCommand o) (cfPath o) (outputPathOf o)
       = inl command /\
     runCommand env command (cfQuiet o) = None).
Proof.
  assert (Hne : String.eqb (Ext (cfPath o)) (cfTargetExtension o) = false ->
                Ext (cfPath o) <> cfTargetExtension o)
    by (intros H; now apply String.eqb_neq).
  assert (Heq : String.eqb (Ext (cfPath o)) (cfTargetExtension o) = true ->
                Ext (cfPath o) = cfTargetExtension o)
    by (intros H; now apply String.eqb_eq).
  file_cases o env;
    (split;
     [ intros p Hin; in_list Hin; injection Hin as <-; reflexivity
     | split;
       [ intros [p Hin]; in_list Hin;
         (split; [reflexivity|]); (split; [apply Hne; reflexivity|]);
         exists command; (split; [reflexivity|]); exact Hrun
       | intros (Hd & Hx & command' & Hg & Hr);
         first [ discriminate
               | exfalso; apply Hx; apply Heq; reflexivity
               | injection Hg as <-; congruence
               | exists (cfPath o); simpl; tauto ] ] ]).
Qed.

(** X4.  ConvertFile works on its file and on nothing else: a rename or a
    copy goes from the path of the file to its output path, the command is
    built from the template for these two paths, the process is run with
    the quiet flag of the options, and what is removed is the file.  It
    relocates at most once, runs at most one process and removes at most
    once. *)
Theorem ConvertFile_stays_on_its_file (o : ConvertFileOpts) (env : Env) :
  (forall c, In c (snd (runConvertFile o env)) ->
     match c with
     | CallRename src dst | CallCopyFile src dst =>
         src = cfPath o /\ dst = outputPathOf o
     | CallGenerate tmpl input output =>
         tmpl = cfCommand o /\ input = cfPath o /\ output = outputPathOf o
     | CallRun _ quiet => quiet = cfQuiet o
     | CallRemove path => path = cfPath o
     | CallLog _ => True
     end) /\
  length (filter relocates (snd (runConvertFile o env))) <= 1 /\
  length (filter runsProcess (snd (runConvertFile o env))) <= 1 /\
  length (filter removes (snd (runConvertFile o env))) <= 1.
Proof.
  split; [intros c; apply ConvertFile_calls_aim|].
  file_cases o env; simpl; lia.
Qed.

(** X5.  With Quiet ConvertFile logs nothing; without it ConvertFile says
    what it is about to do before it does anything. *)
Theorem ConvertFile_logging (o : ConvertFileOpts) (env : Env) :
  (cfQuiet o = true -> filter logs (snd (runConvertFile o env)) = []) /\
  (cfQuiet o = false ->
     exists m rest, snd (runConvertFile o env) = CallLog m :: rest).
Proof.
  file_cases o env; split; intros; try discriminate; try reflexivity; eauto.
Qed.

End ConvertFileSafety.

(** Without DeleteOriginal, a copy. *)
Lemma ConvertFile_keeps_the_original_witness :
  cfDeleteOriginal toRelocate = false /\
  filter destroys (snd (runConvertFile toRelocate envOk)) = [].
Proof.
  assert (H : cfDeleteOriginal toRelocate = false) by reflexivity.
  split; [exact H|]. exact (ConvertFile_keeps_the_original toRelocate envOk H).
Defined.

(** music/a.wav converted with DeleteOriginal: removed, and only it. *)
Lemma ConvertFile_removes_after_success_witness :
  In (CallRemove "music/a.wav") (snd (runConvertFile toConvertAndDelete envOk)) /\
  cfDeleteOriginal toConvertAndDelete = true /\
  Ext (cfPath toConvertAndDelete) <> cfTargetExtension toConvertAndDelete.
Proof.
  assert (Hin : In (CallRemove "music/a.wav")
                   (snd (runConvertFile toConvertAndDelete envOk)))
    by (vm_compute; tauto).
  split; [exact Hin|].
  destruct (ConvertFile_removes_after_success toConvertAndDelete envOk) as [_ Hiff].
  destruct (proj1 Hiff (ex_intro (fun p => In (CallRemove p) _) "music/a.wav" Hin))
    as (Hd & Hx & _).
  split; assumption.
Defined.

(** The failing conversion of music/a.wav: the error names the file. *)
Lemma ConvertFile_errors_carry_the_path_witness :
  fst (fst (runConvertFile toConvert envFail))
    = Some (errConvert "music/a.wav" exitStatus1) /\
  errorPath (errConvert "music/a.wav" exitStatus1) = Some "music/a.wav" /\
  snd (fst (runConvertFile toConvert envFail)) = fileActionFail.
Proof.
  assert (H : fst (fst (runConvertFile toConvert envFail))
              = Some (errConvert "music/a.wav" exitStatus1)) by reflexivity.
  split; [exact H|].
  exact (proj1 (ConvertFile_errors_carry_the_path toConvert envFail) _ H).
Defined.

(** The copy of music/b.mp3: source and destination. *)
Lemma ConvertFile_stays_on_its_file_witness :
  In (CallCopyFile "music/b.mp3" "out/b.mp3") (snd (runConvertFile toRelocate envOk)) /\
  "music/b.mp3" = cfPath toRelocate /\ "out/b.mp3" = outputPathOf toRelocate.
Proof.
  assert (H : In (CallCopyFile "music/b.mp3" "out/b.mp3")
                 (snd (runConvertFile toRelocate envOk)))
    by (vm_compute; tauto).
  split; [exact H|].
  exact (proj1 (ConvertFile_stays_on_its_file toRelocate envOk) _ H).
Defined.

(** Quiet and not quiet. *)
Lemma ConvertFile_logging_witness :
  (cfQuiet toConvertAndDelete = true /\
   filter logs (snd (runConvertFile toConvertAndDelete envOk)) = []) /\
  (cfQuiet toConvert = false /\
   exists m rest, snd (runConvertFile toConvert envOk) = CallLog m :: rest).
Proof.
  assert (H1 : cfQuiet toConvertAndDelete = true) by reflexivity.
  assert (H2 : cfQuiet toConvert = false) by reflexivity.
  split; (split; [assumption|]).
  - exact (proj1 (ConvertFile_logging toConvertAndDelete envOk) H1).
  - exact (proj2 (ConvertFile_logging toConvert envOk) H2).
Defined.

(* ================================================================== *)
(** * The helpers of utils.go *)

Ltac io_unfold :=
  unfold copyFileIO, runCommandIO, generateConvertCommandIO, copyFile, runCommand,
    generateConvertCommand, splitCommand, ioBind, ioRet, ioClose, osCall.

(** The helpers written call by call answer what the helpers above
    answer. *)
Lemma helpersIO_agree env :
  (forall src dst, fst (copyFileIO src dst env []) = copyFile env src dst) /\
  (forall command quiet,
     fst (runCommandIO command quiet env []) = runCommand env command quiet) /\
  (forall tmpl i o,
     fst (generateConvertCommandIO tmpl i o env [])
     = generateConvertCommand env tmpl i o).
Proof.
  split; [|split].
  - intros src dst. io_unfold.
    destruct (os_Stat env src) as [[|]|e]; simpl; try reflexivity.
    destruct (os_Open env src); simpl; try reflexivity.
    destruct (os_Create env dst); reflexivity.
  - intros command quiet. io_unfold.
    destruct (shellwords_Parse env command) as [[|name args]|e]; reflexivity.
  - intros tmpl i o. io_unfold.
    destruct (template_Parse env tmpl); reflexivity.
Qed.

(** X6.  copyFile closes what it has opened, the destination first, on
    every path: the files closed are the files opened or created with
    success, in reverse order, whether the copy succeeds or fails.  Its
    answer is the one ConvertFile receives. *)
Theorem copyFile_closes_what_it_opens (env : Env) (src dst : string) :
  closedBy (snd (copyFileIO src dst env []))
  = rev (openedBy env (snd (copyFileIO src dst env []))) /\
  fst (copyFileIO src dst env []) = copyFile env src dst.
Proof.
  split; [|apply helpersIO_agree].
  io_unfold.
  destruct (os_Stat env src) as [[|]|e]; simpl; try reflexivity.
  destruct (os_Open env src) eqn:Ho; simpl; rewrite ?Ho; try reflexivity.
  destruct (os_Create env dst) eqn:Hc; simpl; rewrite ?Ho, ?Hc; reflexivity.
Qed.

(** X7.  copyFile creates the destination only once the source is known to
    be a regular file and has been opened, and copies only into a
    destination it has created: a source that is missing, that is a
    directory or any other special file, or that cannot be opened, leaves
    the destination untouched. *)
Theorem copyFile_writes_only_from_a_regular_source (env : Env) (src dst : string)
    (c : OsCall) :
  In c (snd (copyFileIO src dst env [])) -> writesFile c = true ->
  os_Stat env src = inl true /\ os_Open env src = None /\
  (c = OsCreate dst \/ (c = OsCopy dst src /\ os_Create env dst = None)).
Proof.
  io_unfold.
  destruct (os_Stat env src) as [[|]|e]; simpl;
    try (intros [<-|[]]; discriminate).
  destruct (os_Open env src) eqn:Ho; simpl.
  - intros [<-|[<-|[]]]; discriminate.
  - destruct (os_Create env dst) eqn:Hc; simpl; intros Hin Hw;
      repeat (destruct Hin as [<-|Hin]; [try discriminate; auto|]);
      contradiction.
Qed.


(** The copy into a read-only directory: the source, opened, is closed. *)
Example copyFile_closes_on_failure :
  copyFileIO "music/b.mp3" "out/b.mp3" envReadOnly [] =
  (Some (errExternal "read-only file system"),
   [OsStat "music/b.mp3"; OsOpen "music/b.mp3"; OsCreate "out/b.mp3";
    OsClose "music/b.mp3"]).
Proof. reflexivity. Qed.

(** A successful copy creates the destination. *)
Lemma copyFile_writes_only_from_a_regular_source_witness :
  In (OsCreate "out/b.mp3") (snd (copyFileIO "music/b.mp3" "out/b.mp3" envOk [])) /\
  os_Stat envOk "music/b.mp3" = inl true /\ os_Open envOk "music/b.mp3" = None.
Proof.
  assert (H : In (OsCreate "out/b.mp3")
                 (snd (copyFileIO "music/b.mp3" "out/b.mp3" envOk [])))
    by (vm_compute; tauto).
  split; [exact H|].
  destruct (copyFile_writes_only_from_a_regular_source
              envOk "music/b.mp3" "out/b.mp3" _ H eq_refl) as (Hs & Ho & _).
  split; assumption.
Defined.


(* ================================================================== *)
(** * The ledger of a run *)

Lemma counter_count a a' st :
  counter a (count a' st) = (counter a st + Z.of_nat (b2n (action_eqb a a')))%Z.
Proof. destruct a, a'; simpl; lia. Qed.


Lemma filter_snoc_length {A} (f : A -> bool) l x :
  length (filter f (l ++ [x])) = length (filter f l) + b2n (f x).
Proof.
  rewrite filter_app, length_app. simpl. destruct (f x); reflexivity.
Qed.

Section LedgerFacts.
Context {P : PathOps}.
Variable o : ConvertDirOpts.
Variable t : FsRoot.
Variable maxGoroutines : nat.


Lemma ErrInv_initial : ErrInv o t (initial o t maxGoroutines).
Proof.
  split; simpl.
  - intros p e a [].
  - rewrite mainOps_opErrors, length_map. unfold countIf. simpl. lia.
Qed.

Lemma ErrInv_step c s s' :
  ErrInv o t s -> step o maxGoroutines c s = Some s' -> ErrInv o t s'.
Proof.
  intros [Hfail Hcount] H.
  destruct c as [|i env]; simpl in H.
  - apply stepMain_inv in H.
    destruct H as [(m & rest & Hm & Hm' & Hg & _ & _ & He & Hst & _)
                  |[(e & rest & Hm & Hm' & Hg & _ & _ & He & Hst & _)
                  |[(p & rest & Hm & Hm' & Hg & _ & _ & He & Hst & _)
                  |[(Hm & _ & Hm' & Hg & _ & _ & He & Hst & _)
                  |(Hm & ->)]]]].
    + rewrite Hm in Hcount. simpl in Hcount.
      split; rewrite ?Hm', ?Hg, ?He, ?Hst; simpl; assumption.
    + rewrite Hm in Hcount. simpl in Hcount.
      split; rewrite ?Hm', ?Hg, ?He, ?Hst; simpl; [assumption|].
      rewrite length_app. simpl. lia.
    + rewrite Hm in Hcount. simpl in Hcount.
      split; rewrite ?Hm', ?Hg, ?He, ?Hst; simpl.
      * intros q e a Hin. apply in_app_or in Hin.
        destruct Hin as [Hin|[Heq|[]]]; [eauto|discriminate].
      * rewrite countIf_app, countIf_cons, countIf_nil. simpl. lia.
    + rewrite Hm in Hcount. simpl in Hcount.
      split; rewrite ?Hm', ?Hg, ?He, ?Hst; simpl; assumption.
    + destruct (report_fields o s) as (Hg & _ & _ & He & Hst & _ & r & Hr).
      rewrite Hm in Hcount. simpl in Hcount.
      split; rewrite ?Hr, ?Hg, ?He, ?Hst; simpl; assumption.
  - apply stepGo_inv in H.
    destruct H as (p & pc & pc' & ev & Hn & Hm & _ & Hg & _ & Hcases).
    pose proof (countIf_updateAt statsFail _ _ p pc' Hn) as Hsf.
    rewrite <- Hg in Hsf.
    assert (Hin : In (p, pc) (goroutines s)) by (eapply nth_error_In; eauto).
    assert (Hfail' : (forall e a, pc' = pcAddError e a -> a = fileActionFail) ->
              forall q e a, In (q, pcAddError e a) (goroutines s') ->
                            a = fileActionFail).
    { intros Hnew q e a Hq. rewrite Hg in Hq.
      apply In_updateAt in Hq. destruct Hq as [Heq|Hq]; [|eauto].
      injection Heq as -> Heq. eauto. }
    destruct Hcases as
      [(-> & -> & _ & _ & _ & He & Hst & _)
      |[(-> & Hsp & -> & _ & _ & He & Hst & _)
      |[(err & a & calls & -> & Hsp & Hcf & -> & _ & _ & He & Hst & _)
      |[(err & a & -> & -> & _ & _ & He & Hst & _)
      |[(a & -> & -> & _ & _ & He & Hst & _)
      |[(-> & -> & _ & _ & He & Hst & _)
      |(-> & -> & _ & _ & He & Hst & _)]]]]]].
    + split; [apply Hfail'; discriminate|].
      rewrite Hm, He, Hst. simpl in Hsf. lia.
    + split; [apply Hfail'; discriminate|].
      rewrite Hm, He, Hst. simpl in Hsf. lia.
    + assert (Hfa : a = fileActionFail <-> err <> None).
      { pose proof (ConvertFile_fail_iff (fileOpts o p) env) as Hi.
        rewrite Hcf in Hi. exact Hi. }
      split.
      * apply Hfail'. intros e a0 Heq. destruct err; [|discriminate].
        injection Heq as _ <-. apply Hfa. discriminate.
      * rewrite Hm, He, Hst. destruct err as [e|]; simpl in Hsf; [lia|].
        assert (a <> fileActionFail) by (intros Ha; apply Hfa in Ha; congruence).
        destruct a; simpl in Hsf; try contradiction; lia.
    + assert (a = fileActionFail) as -> by (eapply Hfail; eauto).
      split; [apply Hfail'; discriminate|].
      rewrite Hm, He, Hst, length_app. simpl in *. lia.
    + split; [apply Hfail'; discriminate|].
      rewrite Hm, He, Hst, failed_count. destruct a; simpl in Hsf; lia.
    + split; [apply Hfail'; discriminate|].
      rewrite Hm, He, Hst. simpl in Hsf. lia.
    + split; [apply Hfail'; discriminate|].
      rewrite Hm, He, Hst. simpl in Hsf. lia.
Qed.

Lemma ErrInv_reachable s : reachable o t maxGoroutines s -> ErrInv o t s.
Proof.
  intros [sched H].
  eapply (exec_invariant o maxGoroutines (ErrInv o t));
    [apply ErrInv_step|apply ErrInv_initial|exact H].
Qed.

Lemma CountInv_initial : CountInv (initial o t maxGoroutines).
Proof.
  intros a. simpl. destruct a; reflexivity.
Qed.

Lemma CountInv_step c s s' :
  CountInv s -> step o maxGoroutines c s = Some s' -> CountInv s'.
Proof.
  intros Hinv H a. specialize (Hinv a). unfold outcomes in *.
  destruct c as [|i env]; simpl in H.
  - apply stepMain_inv in H.
    destruct H as [(m & rest & _ & _ & Hg & _ & _ & _ & Hst & _ & Ht)
                  |[(e & rest & _ & _ & Hg & _ & _ & _ & Hst & _ & Ht)
                  |[(p & rest & _ & _ & Hg & _ & _ & _ & Hst & _ & Ht)
                  |[(_ & _ & _ & Hg & _ & _ & _ & Hst & _ & Ht)
                  |(_ & ->)]]]].
    + now rewrite Hg, Hst, Ht.
    + now rewrite Hg, Hst, Ht.
    + rewrite Hg, Hst, Ht, filter_snoc_length, countIf_app, countIf_cons, countIf_nil.
      simpl. lia.
    + now rewrite Hg, Hst, Ht.
    + destruct (report_fields o s) as (Hg & _ & _ & _ & Hst & Ht & _).
      now rewrite Hg, Hst, Ht.
  - apply stepGo_inv in H.
    destruct H as (p & pc & pc' & ev & Hn & _ & _ & Hg & Ht & Hcases).
    pose proof (countIf_updateAt (owes a) _ _ p pc' Hn) as Ho.
    rewrite <- Hg in Ho. rewrite Ht.
    destruct Hcases as
      [(-> & -> & _ & _ & _ & _ & Hst & ->)
      |[(-> & _ & -> & _ & _ & _ & Hst & ->)
      |[(err & a' & calls & -> & _ & _ & -> & _ & _ & _ & Hst & ->)
      |[(err & a' & -> & -> & _ & _ & _ & Hst & ->)
      |[(a' & -> & -> & _ & _ & _ & Hst & ->)
      |[(-> & -> & _ & _ & _ & Hst & ->)
      |(-> & -> & _ & _ & _ & Hst & ->)]]]]]];
      rewrite ?app_nil_r, ?filter_snoc_length, Hst, ?counter_count;
      try destruct err; simpl in Ho |- *; lia.
Qed.

Lemma CountInv_reachable s : reachable o t maxGoroutines s -> CountInv s.
Proof.
  intros [sched H].
  eapply (exec_invariant o maxGoroutines CountInv);
    [apply CountInv_step|apply CountInv_initial|exact H].
Qed.

Lemma DecInv_initial : DecInv o (initial o t maxGoroutines).
Proof.
  intros i. simpl. destruct i; auto.
Qed.

Lemma DecInv_step c s s' :
  DecInv o s -> step o maxGoroutines c s = Some s' -> DecInv o s'.
Proof.
  intros Hinv H j. specialize (Hinv j). unfold nDecisions, nCalls in *.
  destruct c as [|i env]; simpl in H.
  - apply stepMain_inv in H.
    destruct H as [(m & rest & _ & _ & Hg & _ & _ & _ & _ & _ & Ht)
                  |[(e & rest & _ & _ & Hg & _ & _ & _ & _ & _ & Ht)
                  |[(p & rest & _ & _ & Hg & _ & _ & _ & _ & _ & Ht)
                  |[(_ & _ & _ & Hg & _ & _ & _ & _ & _ & Ht)
                  |(_ & ->)]]]].
    + now rewrite Hg, Ht.
    + now rewrite Hg, Ht.
    + rewrite Hg, Ht, !filter_snoc_length. simpl. rewrite !Nat.add_0_r.
      destruct (Nat.lt_ge_cases j (length (goroutines s))) as [Hlt|Hge].
      * rewrite nth_error_app1 by assumption. exact Hinv.
      * rewrite nth_error_app2 by assumption.
        assert (Hnone : nth_error (goroutines s) j = None)
          by (apply nth_error_None; assumption).
        rewrite Hnone in Hinv. destruct Hinv as [-> ->].
        destruct (j - length (goroutines s)) as [|k]; simpl; [auto|].
        destruct k; auto.
    + now rewrite Hg, Ht.
    + destruct (report_fields o s) as (Hg & _ & _ & _ & _ & Ht & _).
      now rewrite Hg, Ht.
  - apply stepGo_inv in H.
    destruct H as (p & pc & pc' & ev & Hn & _ & _ & Hg & Ht & Hcases).
    rewrite Hg, Ht, nth_error_updateAt.
    destruct (Nat.eqb_spec i j) as [<-|Hne].
    + rewrite Hn in *. simpl.
      destruct Hcases as
        [(-> & -> & _ & _ & _ & _ & _ & ->)
        |[(-> & Hsp & -> & _ & _ & _ & _ & ->)
        |[(err & a' & calls & -> & Hsp & _ & -> & _ & _ & _ & _ & ->)
        |[(err & a' & -> & -> & _ & _ & _ & _ & ->)
        |[(a' & -> & -> & _ & _ & _ & _ & ->)
        |[(-> & -> & _ & _ & _ & _ & ->)
        |(-> & -> & _ & _ & _ & _ & ->)]]]]]];
        rewrite ?app_nil_r, ?filter_snoc_length; simpl;
        rewrite ?Nat.eqb_refl, ?Hsp; try destruct err; simpl in *;
        destruct Hinv as [H1 H2]; rewrite ?H1, ?H2; auto.
    + assert (Hev : forall e, In e ev -> decides j e = false /\ isCallOf j e = false).
      { intros e He.
        destruct Hcases as
          [(_ & _ & _ & _ & _ & _ & _ & ->)
          |[(_ & _ & _ & _ & _ & _ & _ & ->)
          |[(err & a' & calls & _ & _ & _ & _ & _ & _ & _ & _ & ->)
          |[(err & a' & _ & _ & _ & _ & _ & _ & ->)
          |[(a' & _ & _ & _ & _ & _ & _ & ->)
          |[(_ & _ & _ & _ & _ & _ & ->)
          |(_ & _ & _ & _ & _ & _ & ->)]]]]]];
          simpl in He; try contradiction; destruct He as [<-|[]]; simpl; auto;
          (destruct (Nat.eqb_spec j i); [congruence|auto]). }
      rewrite !filter_app, !length_app.
      assert (Hz : length (filter (decides j) ev) = 0
                   /\ length (filter (isCallOf j) ev) = 0).
      { clear -Hev. induction ev as [|e ev IH]; [auto|]. simpl.
        destruct (Hev e (or_introl eq_refl)) as [-> ->].
        apply IH. intros e' He'. apply Hev. now right. }
      destruct Hz as [-> ->]. rewrite !Nat.add_0_r. exact Hinv.
Qed.

Lemma DecInv_reachable s : reachable o t maxGoroutines s -> DecInv o s.
Proof.
  intros [sched H].
  eapply (exec_invariant o maxGoroutines (DecInv o));
    [apply DecInv_step|apply DecInv_initial|exact H].
Qed.

End LedgerFacts.

(* ================================================================== *)
(** * Whole runs of ConvertDir *)

Lemma logErrors_nth errs : forall i k err,
  nth_error errs k = Some err ->
  nth_error (logErrors i errs) k = Some (LogError (i + k + 1) err).
Proof.
  induction errs as [|x l IH]; intros i [|k] err H; simpl in H; try discriminate.
  - injection H as ->. simpl. now rewrite Nat.add_0_r.
  - simpl. rewrite (IH (S i) k err H). do 2 f_equal. lia.
Qed.

Lemma logErrors_length errs : forall i, length (logErrors i errs) = length errs.
Proof.
  induction errs as [|x l IH]; intros i; simpl; auto.
Qed.

Section Runs.
Context {P : PathOps}.


(** X10.  When ConvertDir has returned, the error slice holds one error
    per entry whose access failed and one per file counted as failed, and
    nothing else: the run succeeds exactly when every entry could be read
    and no file failed, and otherwise the error returned gives that
    number. *)
Theorem collected_errors_count
    (o : ConvertDirOpts) (t : FsRoot) (maxGoroutines : nat) (s : State)
    (r : option error) :
  reachable o t maxGoroutines s -> returned s = Some r ->
  Z.of_nat (length (collectedErrors s))
  = (Z.of_nat (length (accessFailures (Dir o) t)) + failedFiles (stats s))%Z /\
  (r = None <-> accessFailures (Dir o) t = [] /\ failedFiles (stats s) = 0%Z) /\
  (forall e, r = Some e -> e = errCompleted (length (collectedErrors s))).
Proof.
  intros Hr Hret.
  destruct (returned_state Hr Hret) as (Hall & _ & _ & -> & _).
  pose proof (ErrInv_reachable Hr) as [_ Hcount].
  pose proof (RunInv_reachable Hr) as [_ _ _ _ [Hf0 _]].
  assert (Hpend : pendingOps (main s) = []).
  { unfold returned in Hret. destruct (main s); try discriminate. reflexivity. }
  assert (Hsf : countIf statsFail (goroutines s) = 0).
  { apply countIf_all. intros g Hg. rewrite (Hall g Hg). reflexivity. }
  rewrite Hpend, Hsf in Hcount. cbn [opErrors length] in Hcount.
  split; [lia|]. unfold finalResult. split.
  - destruct (collectedErrors s) as [|e errs]; cbn [length Nat.ltb Nat.leb] in *.
    + split; [intros _|reflexivity].
      split; [|lia]. destruct (accessFailures (Dir o) t); [reflexivity|].
      cbn [length] in Hcount. lia.
    + split; [discriminate|]. intros [Ha Hf]. rewrite Ha, Hf in Hcount.
      cbn [length] in Hcount. lia.
  - intros e He. destruct (collectedErrors s); cbn [length Nat.ltb Nat.leb] in He;
      [discriminate|].
    now injection He as <-.
Qed.

(** X11.  When ConvertDir has returned, each counter is the number of
    calls of ConvertFile that answered its action: converted, moved,
    skipped, failed; and each such call was made on a regular file of the
    tree, with the options of the run. *)
Theorem counters_match_outcomes
    (o : ConvertDirOpts) (t : FsRoot) (maxGoroutines : nat) (s : State)
    (r : option error) :
  reachable o t maxGoroutines s -> returned s = Some r ->
  (forall a, counter a (stats s) = Z.of_nat (outcomes a (trace s))) /\
  (forall i res calls, In (EvConvertFile i res calls) (trace s) ->
     exists p env,
       nth_error (regularFiles (Dir o) t) i = Some p /\
       runConvertFile (fileOpts o p) env = (res, calls)).
Proof.
  intros Hr Hret.
  destruct (returned_state Hr Hret) as (Hall & Hfiles & _).
  pose proof (CountInv_reachable Hr) as Hc.
  pose proof (TraceInv_reachable Hr) as Htr.
  split.
  - intros a. rewrite (Hc a).
    assert (Hz : countIf (owes a) (goroutines s) = 0).
    { apply countIf_all. intros g Hg. rewrite (Hall g Hg). reflexivity. }
    rewrite Hz. lia.
  - intros i res calls Hin.
    destruct (tr_calls Htr i res calls Hin) as (p & pc & env & Hn & _ & Hcf).
    exists p, env. split; [|assumption].
    rewrite <- Hfiles, nth_error_map, Hn. reflexivity.
Qed.

(** X12.  When ConvertDir has returned, every regular file of the tree has
    had exactly one decision, and ConvertFile has been called on it exactly
    once if the eligibility test passes and not at all otherwise: no file
    is handed to ConvertFile twice. *)
Theorem each_file_is_decided_once
    (o : ConvertDirOpts) (t : FsRoot) (maxGoroutines : nat) (s : State)
    (r : option error) (i : nat) (p : string) :
  reachable o t maxGoroutines s -> returned s = Some r ->
  nth_error (regularFiles (Dir o) t) i = Some p ->
  nDecisions i (trace s) = 1 /\
  nCalls i (trace s) = (if shouldProcess o p then 1 else 0).
Proof.
  intros Hr Hret Hn.
  destruct (returned_state Hr Hret) as (Hall & Hfiles & _).
  destruct (DecInv_reachable Hr i) as [Hd Hc].
  rewrite <- Hfiles, nth_error_map in Hn.
  destruct (nth_error (goroutines s) i) as [[q pc]|] eqn:Hg; [|discriminate].
  simpl in Hn. injection Hn as ->.
  assert (Hx : snd (p, pc) = pcExit) by (apply Hall; eapply nth_error_In; eauto).
  simpl in Hx. subst pc. simpl in Hd, Hc.
  split; [assumption|]. rewrite Hc. now destruct (shouldProcess o p).
Qed.

(** X13.  What ConvertDir has logged when it returns.  On success with
    Quiet: nothing.  On success without Quiet: the two progress lines and
    the summary, in which the files converted are the conversions counted,
    the failures are zero and the total is converted + moved + skipped.
    On failure, quiet or not: the header and one line per collected error,
    numbered from 1 in the order of the slice, after the progress lines. *)
Theorem what_ConvertDir_logs
    (o : ConvertDirOpts) (t : FsRoot) (maxGoroutines : nat) (s : State)
    (r : option error) :
  reachable o t maxGoroutines s -> returned s = Some r ->
  (r = None -> Quiet o = true -> logged s = []) /\
  (r = None -> Quiet o = false ->
     logged s =
       [LogWorkers maxGoroutines; LogWaiting; LogSummaryHeader;
        LogConverted (processedFiles (stats s));
        LogMoved (movedFiles (stats s));
        LogSkipped (skippedFiles (stats s));
        LogFailed 0;
        LogTotal (processedFiles (stats s) + movedFiles (stats s)
                  + skippedFiles (stats s))]) /\
  (forall e, r = Some e ->
     exists lines,
       logged s =
         (if Quiet o then [] else [LogWorkers maxGoroutines; LogWaiting])
         ++ LogErrorsHeader :: lines /\
       length lines = length (collectedErrors s) /\
       forall k err, nth_error (collectedErrors s) k = Some err ->
                     nth_error lines k = Some (LogError (k + 1) err)).
Proof.
  intros Hr Hret.
  destruct (returned_state Hr Hret) as (_ & _ & _ & -> & Hlog).
  pose proof (RunInv_reachable Hr) as [_ _ _ _ [Hf0 Hf]].
  unfold finalResult, finalLogs, preamble in *.
  destruct (collectedErrors s) as [|x errs] eqn:He; simpl in *.
  - split; [|split].
    + intros _ Hq. now rewrite Hq in Hlog.
    + intros _ Hq. rewrite Hq in Hlog. rewrite Hlog. simpl. unfold summary.
      assert (failedFiles (stats s) = 0%Z) as -> by lia.
      now rewrite Z.sub_0_r.
    + discriminate.
  - split; [discriminate|]. split; [discriminate|].
    intros e _. exists (LogError 1 x :: logErrors 1 errs).
    split; [|split].
    + rewrite Hlog. destruct (Quiet o); reflexivity.
    + simpl. now rewrite logErrors_length.
    + intros [|k] err Hk; simpl in Hk.
      * now injection Hk as ->.
      * simpl. rewrite (logErrors_nth errs 1 k Hk). reflexivity.
Qed.


End Runs.

(* ================================================================== *)
(** * Whole runs on concrete trees *)


(** music/locked unreadable, music/z.wav converted: one error. *)
Lemma collected_errors_count_witness :
  exists s,
    exec optsPlain 1 schedLocked (initial optsPlain treeLocked 1) = Some s /\
    returned s = Some (Some (errCompleted 1)) /\
    Z.of_nat (length (collectedErrors s))
    = (Z.of_nat (length (accessFailures (Dir optsPlain) treeLocked))
       + failedFiles (stats s))%Z.
Proof.
  assert (Hrun : exists s,
            exec optsPlain 1 schedLocked (initial optsPlain treeLocked 1) = Some s /\
            returned s = Some (Some (errCompleted 1)))
    by (eexists; split; [vm_compute; reflexivity|reflexivity]).
  destruct Hrun as (s & He & Hret). exists s.
  split; [exact He|]. split; [exact Hret|].
  exact (proj1 (collected_errors_count (ex_intro _ _ He) Hret)).
Defined.

(** Two files, one converted and one failed. *)
Lemma counters_match_outcomes_witness :
  exists s,
    exec optsPlain 2 schedBoth (initial optsPlain treeTwo 2) = Some s /\
    returned s = Some (Some (errCompleted 1)) /\
    processedFiles (stats s) = Z.of_nat (outcomes fileActionConvert (trace s)) /\
    failedFiles (stats s) = Z.of_nat (outcomes fileActionFail (trace s)).
Proof.
  assert (Hrun : exists s,
            exec optsPlain 2 schedBoth (initial optsPlain treeTwo 2) = Some s /\
            returned s = Some (Some (errCompleted 1)))
    by (eexists; split; [vm_compute; reflexivity|reflexivity]).
  destruct Hrun as (s & He & Hret). exists s.
  split; [exact He|]. split; [exact Hret|].
  destruct (counters_match_outcomes (ex_intro _ _ He) Hret) as [Hc _].
  split; [exact (Hc fileActionConvert)|exact (Hc fileActionFail)].
Defined.

(** music/note.txt, the first file of the two. *)
Lemma each_file_is_decided_once_witness :
  exists s,
    exec optsPlain 2 schedBoth (initial optsPlain treeTwo 2) = Some s /\
    returned s = Some (Some (errCompleted 1)) /\
    nth_error (regularFiles (Dir optsPlain) treeTwo) 0 = Some "music/note.txt" /\
    nDecisions 0 (trace s) = 1 /\
    nCalls 0 (trace s) = 1.
Proof.
  assert (Hrun : exists s,
            exec optsPlain 2 schedBoth (initial optsPlain treeTwo 2) = Some s /\
            returned s = Some (Some (errCompleted 1)))
    by (eexists; split; [vm_compute; reflexivity|reflexivity]).
  assert (Hn : nth_error (regularFiles (Dir optsPlain) treeTwo) 0
               = Some "music/note.txt") by reflexivity.
  destruct Hrun as (s & He & Hret). exists s.
  split; [exact He|]. split; [exact Hret|]. split; [exact Hn|].
  exact (@each_file_is_decided_once _ optsPlain treeTwo 2 s _ 0 _
           (ex_intro _ _ He) Hret Hn).
Defined.

(** A quiet success, a success that is not quiet, a failure. *)
Lemma what_ConvertDir_logs_witness :
  (exists s,
     exec optsQuiet 1 schedQuiet (initial optsQuiet treeWav 1) = Some s /\
     returned s = Some None /\ Quiet optsQuiet = true /\ logged s = []) /\
  (exists s,
     exec optsDeny 1 (schedOne 5 envOk) (initial optsDeny treeNote 1) = Some s /\
     returned s = Some None /\ Quiet optsDeny = false /\
     In (LogFailed 0) (logged s)) /\
  (exists s lines,
     exec optsPlain 2 schedBoth (initial optsPlain treeTwo 2) = Some s /\
     returned s = Some (Some (errCompleted 1)) /\
     logged s = [LogWorkers 2; LogWaiting] ++ LogErrorsHeader :: lines /\
     length lines = length (collectedErrors s)).
Proof.
  split; [|split].
  - assert (Hrun : exists s,
              exec optsQuiet 1 schedQuiet (initial optsQuiet treeWav 1) = Some s /\
              returned s = Some None)
      by (eexists; split; [vm_compute; reflexivity|reflexivity]).
    destruct Hrun as (s & He & Hret). exists s.
    split; [exact He|]. split; [exact Hret|]. split; [reflexivity|].
    exact (proj1 (what_ConvertDir_logs (ex_intro _ _ He) Hret) eq_refl eq_refl).
  - assert (Hrun : exists s,
              exec optsDeny 1 (schedOne 5 envOk) (initial optsDeny treeNote 1)
                = Some s /\ returned s = Some None)
      by (eexists; split; [vm_compute; reflexivity|reflexivity]).
    destruct Hrun as (s & He & Hret). exists s.
    split; [exact He|]. split; [exact Hret|]. split; [reflexivity|].
    rewrite (proj1 (proj2 (what_ConvertDir_logs (ex_intro _ _ He) Hret))
                   eq_refl eq_refl).
    simpl. tauto.
  - assert (Hrun : exists s,
              exec optsPlain 2 schedBoth (initial optsPlain treeTwo 2) = Some s /\
              returned s = Some (Some (errCompleted 1)))
      by (eexists; split; [vm_compute; reflexivity|reflexivity]).
    destruct Hrun as (s & He & Hret).
    destruct (proj2 (proj2 (what_ConvertDir_logs (ex_intro _ _ He) Hret))
                    _ eq_refl) as (lines & Hl & Hlen & _).
    exists s, lines.
    split; [exact He|]. split; [exact Hret|]. split; [exact Hl|exact Hlen].
Defined.


(* ================================================================== *)
(** * The command line *)

Section CliFacts.
Context {P : PathOps}.

Lemma convertFiles_trace f world : forall files k errors,
  length (snd (convertFiles f world k files errors)) = length files /\
  forall j path, nth_error files j = Some path ->
    nth_error (snd (convertFiles f world k files errors)) j
    = Some (CliConvertFile (fileOptsOf f path)
              (fst (runConvertFile (fileOptsOf f path) (world (k + j))))
              (snd (runConvertFile (fileOptsOf f path) (world (k + j))))).
Proof.
  induction files as [|path rest IH]; intros k errors; simpl.
  - split; [reflexivity|]. intros [|j] p H; discriminate.
  - destruct (runConvertFile (fileOptsOf f path) (world k)) as [r calls] eqn:Hcf.
    set (errors' := match fst r with Some err => errors ++ [err] | None => errors end).
    destruct (IH (S k) errors') as [Hlen Hnth].
    destruct (convertFiles f world (S k) rest errors') as [errs tr] eqn:Hrest.
    simpl in *. split; [now rewrite Hlen|].
    intros [|j] p H; simpl in H.
    + injection H as <-. simpl. now rewrite Nat.add_0_r, Hcf.
    + simpl. rewrite (Hnth j p H). now rewrite Nat.add_succ_r.
Qed.

Lemma convertFiles_calls f world : forall files k errors c,
  In c (snd (convertFiles f world k files errors)) -> isConvertFile c = true.
Proof.
  induction files as [|path rest IH]; intros k errors c; simpl; [contradiction|].
  destruct (runConvertFile (fileOptsOf f path) (world k)) as [r calls].
  destruct (convertFiles f world (S k) rest
              match fst r with Some err => errors ++ [err] | None => errors end)
    as [errs tr] eqn:Hrest.
  simpl. intros [<-|Hin]; [reflexivity|].
  apply (IH (S k) match fst r with Some err => errors ++ [err] | None => errors end).
  now rewrite Hrest.
Qed.

(** X15.  The guard of Action on missing input can never fire (it asks for
    a negative number of files): Action never returns the error "input
    directory (--dir) or file(s) (--files) are required", and with neither
    a directory nor a file it returns nil having done nothing. *)
Theorem Action_never_asks_for_input (f : Flags) (sys : Sys) (world : nat -> Env) :
  fst (Action f sys world) <> Returns (Some cliRequired) /\
  (flag_dir f = EmptyString -> flag_files f = [] ->
   Action f sys world = (Returns None, [])).
Proof.
  unfold Action. rewrite andb_false_r. split.
  - destruct (String.eqb (flag_dir f) EmptyString); simpl.
    + destruct (0 <? length (flag_files f))%nat; [|discriminate].
      destruct (convertFiles f world 0 (flag_files f) []). discriminate.
    + destruct (sys_Stat sys (flag_dir f)) as [e|]; simpl.
      * destruct (sys_IsNotExist sys e); discriminate.
      * destruct (sys_Stat sys (flag_out_dir f)) as [e|]; [|discriminate].
        destruct (sys_IsNotExist sys e); [|discriminate].
        destruct (flag_create_out_dir f); [|discriminate].
        destruct (sys_MkdirAll sys (flag_out_dir f)); discriminate.
  - intros -> ->. reflexivity.
Qed.

(** X16.  Without a directory, Action calls ConvertFile once on each file
    of --files, in order, with the options made from the flags, and
    returns nil whatever these calls answer: the errors of the files are
    dropped.  The output directory is neither checked nor created. *)
Theorem Action_on_files (f : Flags) (sys : Sys) (world : nat -> Env) :
  flag_dir f = EmptyString ->
  fst (Action f sys world) = Returns None /\
  length (snd (Action f sys world)) = length (flag_files f) /\
  forall j path, nth_error (flag_files f) j = Some path ->
    nth_error (snd (Action f sys world)) j
    = Some (CliConvertFile (fileOptsOf f path)
              (fst (runConvertFile (fileOptsOf f path) (world j)))
              (snd (runConvertFile (fileOptsOf f path) (world j)))).
Proof.
  intros Hd. unfold Action. rewrite andb_false_r, Hd. simpl.
  destruct (flag_files f) as [|path rest] eqn:Hf.
  - simpl. split; [reflexivity|]. split; [reflexivity|].
    intros [|j] p H; discriminate.
  - change (0 <? length (path :: rest))%nat with true. cbv iota.
    pose proof (convertFiles_trace f world (path :: rest) 0 []) as [Hlen Hnth].
    destruct (convertFiles f world 0 (path :: rest) []) as [errs tr].
    simpl in Hlen, Hnth |- *. auto.
Qed.

(** X17.  With a directory, the files of --files are ignored, and Action
    goes on to ConvertDir only when os.Stat has found the directory and
    the output directory is there or has just been created; the options
    ConvertDir gets are those of the flags.  Action then never returns nil
    itself: it returns an error of its own or what ConvertDir returns. *)
Theorem Action_on_a_directory (f : Flags) (sys : Sys) (world : nat -> Env) :
  flag_dir f <> EmptyString ->
  filter isConvertFile (snd (Action f sys world)) = [] /\
  fst (Action f sys world) <> Returns None /\
  forall opts, fst (Action f sys world) = ReturnsConvertDir opts ->
    opts = dirOptsOf f /\
    sys_Stat sys (flag_dir f) = None /\
    (sys_Stat sys (flag_out_dir f) = None \/
     exists err,
       sys_Stat sys (flag_out_dir f) = Some err /\
       sys_IsNotExist sys err = true /\
       flag_create_out_dir f = true /\
       sys_MkdirAll sys (flag_out_dir f) = None).
Proof.
  intros Hd. apply String.eqb_neq in Hd.
  unfold Action. rewrite andb_false_r, Hd. simpl.
  destruct (sys_Stat sys (flag_dir f)) as [e|]; simpl.
  - split; [reflexivity|]. split; [discriminate|]. discriminate.
  - destruct (sys_Stat sys (flag_out_dir f)) as [e|] eqn:Ho.
    + destruct (sys_IsNotExist sys e) eqn:Hne;
        [|split; [reflexivity|]; split; discriminate].
      destruct (flag_create_out_dir f) eqn:Hc;
        [|split; [reflexivity|]; split; discriminate].
      destruct (sys_MkdirAll sys (flag_out_dir f)) eqn:Hmk;
        destruct (flag_quiet f); simpl;
        (split; [reflexivity|]); (split; [discriminate|]);
        intros opts Ho'; try discriminate;
        injection Ho' as <-; repeat split; right; exists e; auto.
    + destruct (flag_quiet f); simpl;
        (split; [reflexivity|]); (split; [discriminate|]);
        intros opts Ho'; injection Ho' as <-; auto.
Qed.

(** X18.  Action creates the output directory only on demand: os.MkdirAll
    is called exactly when a directory is given and found, the output
    directory is reported missing and --create-out-dir is set, and then on
    the output directory.  When the output directory is missing and the
    flag is not set, Action returns "directory does not exist" after the
    two calls of os.Stat and nothing else. *)
Theorem Action_creates_on_demand (f : Flags) (sys : Sys) (world : nat -> Env) :
  (forall p, In (CliMkdirAll p) (snd (Action f sys world)) <->
     p = flag_out_dir f /\
     flag_dir f <> EmptyString /\
     sys_Stat sys (flag_dir f) = None /\
     flag_create_out_dir f = true /\
     exists err, sys_Stat sys (flag_out_dir f) = Some err /\
                 sys_IsNotExist sys err = true) /\
  (flag_dir f <> EmptyString -> sys_Stat sys (flag_dir f) = None ->
   flag_create_out_dir f = false ->
   forall err, sys_Stat sys (flag_out_dir f) = Some err ->
               sys_IsNotExist sys err = true ->
   Action f sys world
   = (Returns (Some (cliDirNotExist (flag_out_dir f))),
      [CliStat (flag_dir f); CliStat (flag_out_dir f)])).
Proof.
  split.
  - intros p. unfold Action. rewrite andb_false_r.
    destruct (String.eqb_spec (flag_dir f) EmptyString) as [Hd|Hd]; simpl.
    + split.
      * intros Hin. exfalso.
        destruct (0 <? length (flag_files f))%nat; [|destruct Hin].
        pose proof (convertFiles_calls f world (flag_files f) 0 [] (CliMkdirAll p))
          as Hc.
        destruct (convertFiles f world 0 (flag_files f) []) as [errs tr].
        simpl in *. specialize (Hc Hin). discriminate.
      * intros (_ & Hx & _). contradiction.
    + destruct (sys_Stat sys (flag_dir f)) as [e|] eqn:Hs; simpl.
      * split; [intros [H|[]]; discriminate|].
        intros (_ & _ & H & _). discriminate.
      * destruct (sys_Stat sys (flag_out_dir f)) as [e|] eqn:Ho.
        -- destruct (sys_IsNotExist sys e) eqn:Hne.
           ++ destruct (flag_create_out_dir f) eqn:Hc.
              ** destruct (sys_MkdirAll sys (flag_out_dir f));
                   destruct (flag_quiet f); simpl;
                   (split; [intros Hin|intros (-> & _); tauto]);
                   repeat (destruct Hin as [Hin|Hin];
                           [try discriminate; injection Hin as <-;
                            repeat split; eauto|]);
                   contradiction.
              ** split; [intros [H|[H|[]]]; discriminate|].
                 intros (_ & _ & _ & H & _). discriminate.
           ++ split; [intros [H|[H|[]]]; discriminate|].
              intros (_ & _ & _ & _ & e' & He' & Hn').
              injection He' as <-. congruence.
        -- destruct (flag_quiet f); simpl;
             (split; [intros Hin|intros (_ & _ & _ & _ & e' & He' & _); discriminate]);
             repeat (destruct Hin as [Hin|Hin]; [discriminate|]); contradiction.
  - intros Hd Hs Hc err Ho Hne. apply String.eqb_neq in Hd.
    unfold Action. rewrite andb_false_r, Hd, Hs, Ho, Hne, Hc. reflexivity.
Qed.

End CliFacts.

(* ================================================================== *)
(** * The command line on concrete flags *)

(** cac with no flag at all. *)
Lemma Action_never_asks_for_input_witness :
  flag_dir (mkFlags EmptyString [] false) = EmptyString /\
  flag_files (mkFlags EmptyString [] false) = [] /\
  Action (mkFlags EmptyString [] false) sysAll (fun _ => envOk) = (Returns None, []).
Proof.
  split; [reflexivity|]. split; [reflexivity|].
  exact (proj2 (Action_never_asks_for_input
                  (mkFlags EmptyString [] false) sysAll (fun _ => envOk))
               eq_refl eq_refl).
Defined.

(** cac --files music/a.wav, the external command failing. *)
Lemma Action_on_files_witness :
  flag_dir (mkFlags EmptyString ["music/a.wav"] false) = EmptyString /\
  fst (runConvertFile (fileOptsOf (mkFlags EmptyString ["music/a.wav"] false)
                                  "music/a.wav") envFail)
    = (Some (errConvert "music/a.wav" exitStatus1), fileActionFail) /\
  fst (Action (mkFlags EmptyString ["music/a.wav"] false) sysAll (fun _ => envFail))
    = Returns None.
Proof.
  assert (H : flag_dir (mkFlags EmptyString ["music/a.wav"] false) = EmptyString)
    by reflexivity.
  split; [exact H|]. split; [reflexivity|].
  exact (proj1 (Action_on_files
                  (mkFlags EmptyString ["music/a.wav"] false) sysAll
                  (fun _ => envFail) H)).
Defined.

(** cac --dir music --files x.wav --create-out-dir, out missing. *)
Lemma Action_on_a_directory_witness :
  flag_dir (mkFlags "music" ["x.wav"] true) <> EmptyString /\
  fst (Action (mkFlags "music" ["x.wav"] true) sysNoOut (fun _ => envOk))
    = ReturnsConvertDir (dirOptsOf (mkFlags "music" ["x.wav"] true)) /\
  filter isConvertFile
    (snd (Action (mkFlags "music" ["x.wav"] true) sysNoOut (fun _ => envOk))) = [] /\
  sys_Stat sysNoOut "music" = None.
Proof.
  assert (Hd : flag_dir (mkFlags "music" ["x.wav"] true) <> EmptyString)
    by discriminate.
  assert (Hr : fst (Action (mkFlags "music" ["x.wav"] true) sysNoOut
                           (fun _ => envOk))
               = ReturnsConvertDir (dirOptsOf (mkFlags "music" ["x.wav"] true)))
    by reflexivity.
  destruct (Action_on_a_directory (mkFlags "music" ["x.wav"] true) sysNoOut
              (fun _ => envOk) Hd) as (Hno & _ & Hreach).
  destruct (Hreach _ Hr) as (_ & Hs & _).
  repeat split; assumption.
Defined.

(** cac --dir music, out missing: with and without --create-out-dir. *)
Lemma Action_creates_on_demand_witness :
  In (CliMkdirAll "out")
     (snd (Action (mkFlags "music" [] true) sysNoOut (fun _ => envOk))) /\
  flag_create_out_dir (mkFlags "music" [] true) = true /\
  Action (mkFlags "music" [] false) sysNoOut (fun _ => envOk)
  = (Returns (Some (cliDirNotExist "out")), [CliStat "music"; CliStat "out"]).
Proof.
  assert (Hin : In (CliMkdirAll "out")
                   (snd (Action (mkFlags "music" [] true) sysNoOut
                                (fun _ => envOk))))
    by (vm_compute; tauto).
  destruct (Action_creates_on_demand (mkFlags "music" [] true) sysNoOut
              (fun _ => envOk)) as [Hiff _].
  destruct (proj1 (Hiff "out") Hin) as (_ & _ & _ & Hc & _).
  destruct (Action_creates_on_demand (mkFlags "music" [] false) sysNoOut
              (fun _ => envOk)) as [_ Hmiss].
  split; [exact Hin|]. split; [exact Hc|].
  apply (Hmiss ltac:(discriminate) eq_refl eq_refl noSuchFile eq_refl eq_refl).
Defined.

(* ================================================================== *)
(** * splitCommand of the flag-based program *)

Module RegexpFacts.
Import Regexp.

Lemma spanPlain_word w : forall rest,
  Forall (fun c => plain c = true) w ->
  match rest with c :: _ => plain c = false | [] => True end ->
  spanPlain (w ++ rest) = (w, rest).
Proof.
  induction w as [|c w IH]; intros rest Hw Hrest; simpl.
  - destruct rest as [|c r]; [reflexivity|]. simpl. now rewrite Hrest.
  - inversion Hw as [|? ? Hc Hw']; subst. rewrite Hc, (IH rest Hw' Hrest).
    reflexivity.
Qed.

Lemma untilQuote_text text : forall q rest,
  Forall (fun c => isQuote c = false) text -> isQuote q = true ->
  untilQuote (text ++ q :: rest) = Some (text, q, rest).
Proof.
  induction text as [|c text IH]; intros q rest Ht Hq; simpl.
  - now rewrite Hq.
  - inversion Ht as [|? ? Hc Ht']; subst. rewrite Hc, (IH q rest Ht' Hq).
    reflexivity.
Qed.

Lemma unquote_written a : wellWritten a -> unquote (written a) = meant a.
Proof.
  destruct a as [w|q text]; unfold wellWritten, written, meant.
  - intros [Hne Hw]. destruct w as [|c w]; [contradiction|].
    inversion Hw as [|? ? Hc _]; subst. unfold unquote.
    assert (isQuote c = false) as ->.
    { unfold plain in Hc. destruct (isQuote c); [|reflexivity].
      rewrite orb_true_r in Hc. discriminate. }
    now rewrite andb_false_r.
  - intros [Hq _]. unfold unquote.
    assert (Hlen : (1 <? length (q :: text ++ [q]))%nat = true).
    { apply Nat.ltb_lt. cbn [length]. rewrite length_app. simpl. lia. }
    rewrite Hlen, Hq, last_last, Ascii.eqb_refl. cbn [andb].
    apply removelast_last.
Qed.

Lemma space_not_plain : plain space = false.
Proof. reflexivity. Qed.

Lemma commandLine_cons a args :
  commandLine (a :: args) = written a ++ restOfLine args.
Proof.
  destruct args; simpl; [now rewrite app_nil_r|reflexivity].
Qed.

Lemma written_length a : wellWritten a -> 1 <= length (written a).
Proof.
  destruct a as [w|q text]; simpl.
  - intros [Hne _]. destruct w; [contradiction|simpl; lia].
  - lia.
Qed.

Lemma restOfLine_head args :
  match restOfLine args with c :: _ => plain c = false | [] => True end.
Proof.
  destruct args; simpl; [exact I|reflexivity].
Qed.

Lemma findAll_commandLine args :
  Forall wellWritten args ->
  forall fuel, length (commandLine args) <= fuel ->
  findAll fuel (commandLine args) = map written args.
Proof.
  induction args as [|a args IH]; intros Hall fuel Hfuel.
  - destruct fuel; reflexivity.
  - inversion Hall as [|? ? Ha Hrest]; subst.
    pose proof (written_length a Ha) as Hlen.
    rewrite commandLine_cons in *. rewrite length_app in Hfuel.
    destruct fuel as [|fuel]; [lia|].
    assert (Htail : findAll fuel (restOfLine args) = map written args).
    { destruct args as [|b args'].
      - destruct fuel; reflexivity.
      - unfold restOfLine in *. cbn [length] in Hfuel.
        destruct fuel as [|fuel']; [lia|].
        cbn [findAll]. rewrite space_not_plain.
        change (isQuote space) with false. cbv iota.
        apply IH; [assumption|lia]. }
    destruct a as [w|q text]; unfold wellWritten in Ha; unfold written at 1.
    + destruct Ha as [Hne Hw]. destruct w as [|c w]; [contradiction|].
      inversion Hw as [|? ? Hc Hw']; subst.
      change ((c :: w) ++ restOfLine args) with (c :: (w ++ restOfLine args)).
      cbn [findAll]. rewrite Hc.
      change (c :: (w ++ restOfLine args)) with ((c :: w) ++ restOfLine args).
      rewrite (@spanPlain_word (c :: w) (restOfLine args) Hw (restOfLine_head args)).
      cbn [map]. now rewrite Htail.
    + destruct Ha as [Hq Ht].
      assert (Hnp : plain q = false).
      { unfold plain. rewrite Hq, orb_true_r. reflexivity. }
      change ((q :: text ++ [q]) ++ restOfLine args)
        with (q :: ((text ++ [q]) ++ restOfLine args)).
      cbn [findAll]. rewrite Hnp, Hq.
      rewrite <- app_assoc. cbn [app].
      rewrite (@untilQuote_text text q (restOfLine args) Ht Hq).
      cbn [map]. now rewrite Htail.
Qed.

(** X19.  splitCommand takes back the arguments of a command line written
    with one space between two arguments, when each argument is a bare word
    (not empty, without white space or quotes) or a text between two quotes
    of the same kind that holds no quote of either kind: the words come
    back as they are and the quoted texts without their quotes, spaces
    inside them kept.  The file names of the default template, which are
    written between double quotes, come back whole unless they hold a
    quote. *)
Theorem splitCommand_takes_back_the_arguments (args : list Arg) :
  Forall wellWritten args ->
  splitCommand (string_of_list_ascii (commandLine args))
  = map (fun a => string_of_list_ascii (meant a)) args.
Proof.
  intros Hall. unfold splitCommand, splitChars.
  rewrite list_ascii_of_string_of_list_ascii.
  rewrite (findAll_commandLine Hall) by lia.
  rewrite !map_map. apply map_ext_in. intros a Ha.
  rewrite unquote_written; [reflexivity|].
  rewrite Forall_forall in Hall. auto.
Qed.

End RegexpFacts.

(** The default command with spaces in the file names. *)
Lemma splitCommand_takes_back_the_arguments_witness :
  Forall Regexp.wellWritten ffmpegArgs /\
  Regexp.splitCommand (string_of_list_ascii (Regexp.commandLine ffmpegArgs))
  = ["ffmpeg"; "-y"; "-i"; "my song.wav"; "out/my song.mp3"].
Proof.
  assert (H : Forall Regexp.wellWritten ffmpegArgs).
  { repeat constructor; try discriminate. }
  split; [exact H|].
  exact (RegexpFacts.splitCommand_takes_back_the_arguments H).
Defined.

(** The condition on the quoted texts is needed: a file name with an
    apostrophe, written between double quotes, comes back in two pieces,
    the first with its quotes. *)
Example splitCommand_breaks_on_an_apostrophe :
  Regexp.splitCommand (string_of_list_ascii (Regexp.commandLine apostropheArgs))
  = ["ffmpeg"; String Regexp.dquote "it'"; "s.wav"].
Proof. reflexivity. Qed.
